(** * Ledger derivation engine of My-ledger (src/App.tsx, src/types.ts)

    The [ledgers] memo of [App.tsx] groups the transaction list by party,
    sorts every group by date, walks it with a running balance and two
    running totals, and emits one [AccountLedger] per party.

    Modelling choices.
    - A TypeScript [number] holding an amount is modelled twice.  The
      derivation over exact integers [Z] serves the results that only
      follow the accumulation step by step or compare a balance with 0.
      Module [IEEE] repeats lines 50-98 over binary64 floats, the
      arithmetic the code runs on; every result that relates sums formed
      in different orders is stated and proved there.
    - [String.prototype.localeCompare] is a host collation; it is a
      parameter [localeCompare] of the development.  Where a result needs
      it to be a consistent comparator this is an explicit hypothesis.
    - [Array.prototype.sort] is specified as a stable sort; it is
      embedded as the stable insertion sort [Array_sort], which for a
      consistent comparator is the only stable sorted arrangement
      ([Array_sort_unique]).
    - [new Set(xs)] followed by [Array.from] keeps the first occurrence of
      each value in insertion order: [Set_add], [Array_from_Set]. *)

From Stdlib Require Import List ZArith String Ascii Bool Lia.
From Stdlib Require Import Permutation Sorted.
From Stdlib Require Floats.
Import ListNotations.
Open Scope Z_scope.

(** ** types.ts *)

Inductive AccountType : Type :=
  | Asset
  | Liability
  | Income
  | Expense
  | Equity.

Record Transaction : Type := mkTransaction {
  id : string;
  date : string;
  particulars : string;
  debit : Z;
  credit : Z;
  party : string;
  accountType : AccountType
}.

Inductive BalanceType : Type :=
  | Dr
  | Cr.

(** [LedgerEntry extends Transaction]: the object spread [{...tx, ...}]
    copies the seven transaction fields, kept here as [entry_tx]. *)
Record LedgerEntry : Type := mkLedgerEntry {
  entry_tx : Transaction;
  balance : Z;
  balanceType : BalanceType
}.

Record AccountLedger : Type := mkAccountLedger {
  accountName : string;
  entries : list LedgerEntry;
  openingBalance : Z;
  closingBalance : Z;
  closingBalanceType : BalanceType;
  totalDebit : Z;
  totalCredit : Z
}.

(** ** Host library: Set, Array.prototype.sort *)

(** [Set.prototype.add]: a value already present leaves the set as it is,
    a new one goes last in iteration order. *)
Definition Set_add (s : list string) (x : string) : list string :=
  if existsb (String.eqb x) s then s else s ++ [x].

(** [Array.from(new Set(xs))] *)
Definition Array_from_Set (xs : list string) : list string :=
  fold_left Set_add xs [].

Section HostSort.
Context {A : Type}.
Variable comparefn : A -> A -> Z.

(** [x] goes in front of the first element it does not follow. *)
Fixpoint sort_insert (x : A) (l : list A) : list A :=
  match l with
  | [] => [x]
  | y :: l' =>
      if comparefn x y <=? 0 then x :: y :: l' else y :: sort_insert x l'
  end.

Fixpoint Array_sort (l : list A) : list A :=
  match l with
  | [] => []
  | x :: l' => sort_insert x (Array_sort l')
  end.
(** Two elements neither of which the comparator puts after the other. *)
Definition tied (x y : A) : bool :=
  (comparefn x y <=? 0) && (comparefn y x <=? 0).
End HostSort.

(** ** App.tsx, lines 50-98 *)

(** [tx.accountType === 'Asset' || tx.accountType === 'Expense'] *)
Definition isAssetOrExpense (t : AccountType) : bool :=
  match t with
  | Asset | Expense => true
  | Liability | Income | Equity => false
  end.

(** [x >= 0 ? (isAssetOrExpense ? 'Dr' : 'Cr') : (isAssetOrExpense ? 'Cr' : 'Dr')],
    written out at lines 77-79 and again at lines 91-93. *)
Definition signAdjusted (x : Z) (isAE : bool) : BalanceType :=
  if x >=? 0
  then (if isAE then Dr else Cr)
  else (if isAE then Cr else Dr).

(** The three [let] variables the callback of [partyTxs.map] updates. *)
Definition Locals : Type := (Z * Z * Z)%type.

(** Body of the callback at lines 62-81: the new values of
    [runningBalance], [totalDebit], [totalCredit], and the entry. *)
Definition visit (st : Locals) (tx : Transaction) : Locals * LedgerEntry :=
  let '(runningBalance, totalDebit, totalCredit) := st in
  let totalDebit := totalDebit + debit tx in
  let totalCredit := totalCredit + credit tx in
  let isAE := isAssetOrExpense (accountType tx) in
  let runningBalance :=
    if isAE
    then runningBalance + (debit tx - credit tx)
    else runningBalance + (credit tx - debit tx) in
  ((runningBalance, totalDebit, totalCredit),
   {| entry_tx := tx;
      balance := runningBalance;
      balanceType := signAdjusted runningBalance isAE |}).

(** [partyTxs.map(callback)], threading the locals from left to right. *)
Fixpoint walk (st : Locals) (txs : list Transaction)
  : Locals * list LedgerEntry :=
  match txs with
  | [] => (st, [])
  | tx :: rest =>
      let '(st1, e) := visit st tx in
      let '(st2, es) := walk st1 rest in
      (st2, e :: es)
  end.

(** [firstTx?.accountType === 'Asset' || firstTx?.accountType === 'Expense']:
    on an empty array [firstTx] is undefined and the test is false. *)
Definition firstIsAssetOrExpense (partyTxs : list Transaction) : bool :=
  match partyTxs with
  | [] => false
  | firstTx :: _ => isAssetOrExpense (accountType firstTx)
  end.

Section Derivation.
Variable localeCompare : string -> string -> Z.

(** [(a, b) => a.date.localeCompare(b.date)] *)
Definition byDate (a b : Transaction) : Z :=
  localeCompare (date a) (date b).

(** Lines 54-56. *)
Definition partyTxsOf (transactions : list Transaction) (p : string)
  : list Transaction :=
  Array_sort byDate
    (filter (fun t => String.eqb (party t) p) transactions).

(** Lines 58-96, from the sorted group on. *)
Definition ledgerOf (p : string) (partyTxs : list Transaction)
  : AccountLedger :=
  let '((runningBalance, totalDebit, totalCredit), entries) :=
    walk (0, 0, 0) partyTxs in
  let isAE := firstIsAssetOrExpense partyTxs in
  {| accountName := p;
     entries := entries;
     openingBalance := 0;
     closingBalance := runningBalance;
     closingBalanceType := signAdjusted runningBalance isAE;
     totalDebit := totalDebit;
     totalCredit := totalCredit |}.

(** The memo itself. *)
Definition ledgers (transactions : list Transaction)
  : list AccountLedger :=
  let parties := Array_from_Set (map party transactions) in
  map (fun p => ledgerOf p (partyTxsOf transactions p)) parties.
End Derivation.

(** ** The derivation over the array store

    [filter] allocates a fresh array, [sort] reorders the array it is
    called on in place and returns the same reference.  The store keeps
    every [Transaction[]] alive at its reference; [St] threads it. *)

Definition ref : Type := nat.
Definition Store : Type := list (list Transaction).
Definition St (A : Type) : Type := Store -> A * Store.

Definition ret {A : Type} (a : A) : St A := fun h => (a, h).

Definition bind {A B : Type} (m : St A) (k : A -> St B) : St B :=
  fun h => let '(a, h1) := m h in k a h1.

Notation "x <- m ;; k" := (bind m (fun x => k))
  (at level 61, m at next level, right associativity).

Fixpoint mapM {A B : Type} (f : A -> St B) (l : list A) : St (list B) :=
  match l with
  | [] => ret []
  | x :: l' => y <- f x ;; ys <- mapM f l' ;; ret (y :: ys)
  end.

Definition deref (h : Store) (r : ref) : list Transaction := nth r h [].

Fixpoint assign (h : Store) (r : ref) (v : list Transaction) : Store :=
  match h, r with
  | [], _ => []
  | _ :: h', O => v :: h'
  | a :: h', S r' => a :: assign h' r' v
  end.

Definition Array_read (r : ref) : St (list Transaction) :=
  fun h => (deref h r, h).

(** [arr.filter(f)]: a new array, [arr] untouched. *)
Definition Array_filter (f : Transaction -> bool) (r : ref) : St ref :=
  fun h => (List.length h, h ++ [filter f (deref h r)]).

(** [arr.sort(cmp)]: sorts [arr] itself and returns it. *)
Definition Array_sort_inplace (cmp : Transaction -> Transaction -> Z)
  (r : ref) : St ref :=
  fun h => (r, assign h r (Array_sort cmp (deref h r))).

Section DerivationOnStore.
Variable localeCompare : string -> string -> Z.

Definition ledgersSt (transactions : ref) : St (list AccountLedger) :=
  txs <- Array_read transactions ;;
  let parties := Array_from_Set (map party txs) in
  mapM (fun p =>
          filtered <- Array_filter
                        (fun t => String.eqb (party t) p) transactions ;;
          sorted <- Array_sort_inplace (byDate localeCompare) filtered ;;
          partyTxs <- Array_read sorted ;;
          ret (ledgerOf p partyTxs))
       parties.
End DerivationOnStore.

(** ** Vocabulary of the specification *)

Definition debitNatured (t : AccountType) : Prop :=
  t = Asset \/ t = Expense.

Definition creditNatured (t : AccountType) : Prop :=
  t = Liability \/ t = Income \/ t = Equity.

(** What one transaction adds to the accumulator. *)
Definition naturalAmount (tx : Transaction) : Z :=
  match accountType tx with
  | Asset | Expense => debit tx - credit tx
  | Liability | Income | Equity => credit tx - debit tx
  end.

Definition sumZ (l : list Z) : Z := fold_right Z.add 0 l.

(** The transactions of an output ledger, in ledger order. *)
Definition ledgerTxs (L : AccountLedger) : list Transaction :=
  map entry_tx (entries L).

(** The input transactions of party [p], in input order. *)
Definition ofParty (p : string) (T : list Transaction) : list Transaction :=
  filter (fun t => String.eqb (party t) p) T.

(** The distinct values of a list in order of first appearance: the head
    comes first and is struck from what follows. *)
Fixpoint firstSeen (l : list string) : list string :=
  match l with
  | [] => []
  | x :: l' => x :: filter (fun y => negb (String.eqb y x)) (firstSeen l')
  end.

(** A comparator the host's sort accepts as consistent: its sign is
    antisymmetric and "not after" is transitive. *)
Definition consistentComparator (cmp : string -> string -> Z) : Prop :=
  (forall a b, Z.sgn (cmp b a) = - Z.sgn (cmp a b)) /\
  (forall a b c, cmp a b <= 0 -> cmp b c <= 0 -> cmp a c <= 0).

(** ** A concrete collation: code-unit order *)

Definition codeUnitCompare (a b : string) : Z :=
  match String.compare a b with
  | Lt => -1
  | Eq => 0
  | Gt => 1
  end.

Definition tx0 (d : string) (dr cr : Z) (p : string) (ty : AccountType)
  : Transaction :=
  {| id := ""%string; date := d; particulars := ""%string;
     debit := dr; credit := cr; party := p; accountType := ty |}.

(** A small journal: two parties interleaved, out of date order, one
    date shared by two records of the same party. *)
Definition demoTransactions : list Transaction :=
  [ tx0 "2024-01-05" 0 400 "ABC Traders" Asset;
    tx0 "2024-02-01" 0 5000 "Sales Revenue" Income;
    tx0 "2024-01-01" 1000 0 "ABC Traders" Asset;
    tx0 "2024-01-05" 50 0 "ABC Traders" Expense ].

Definition demoLedger : AccountLedger :=
  ledgerOf "ABC Traders"
    (partyTxsOf codeUnitCompare demoTransactions "ABC Traders").

Definition demoEntry : LedgerEntry :=
  mkLedgerEntry (tx0 "2024-01-05" 0 400 "ABC Traders" Asset) 600 Dr.

Definition demoSalesLedger : AccountLedger :=
  ledgerOf "Sales Revenue"
    (partyTxsOf codeUnitCompare demoTransactions "Sales Revenue").


(** ** App.tsx: component state, handlers and render conditions

    The five [useState] cells of lines 24-28 form [AppState].  A handler
    is a state transformer; [handleFileUpload] awaits the extraction
    service, so it is split at the [await] into the part before it and the
    two ways it can continue. *)

Inductive ViewMode : Type :=
  | ViewCapture
  | ViewTopsheet
  | ViewLedgers.

Inductive InputMode : Type :=
  | InputUpload
  | InputManual.

Record AppState : Type := mkAppState {
  transactions : list Transaction;
  isProcessing : bool;
  error : option string;
  activeTab : ViewMode;
  inputMode : InputMode
}.

(** The arguments of the five [useState] calls. *)
Definition initialState : AppState :=
  {| transactions := [];
     isProcessing := false;
     error := None;
     activeTab := ViewCapture;
     inputMode := InputUpload |}.

Definition uploadFailedMessage : string :=
  "AI analysis failed. Please check your data or try manual entry.".

(** Lines 31-32: [setIsProcessing(true); setError(null)]. *)
Definition handleFileUpload_begin (s : AppState) : AppState :=
  {| transactions := transactions s;
     isProcessing := true;
     error := None;
     activeTab := activeTab s;
     inputMode := inputMode s |}.

(** Lines 34-36 and 41: the extraction returned [extracted]. *)
Definition handleFileUpload_resolved (extracted : list Transaction)
  (s : AppState) : AppState :=
  {| transactions := transactions s ++ extracted;
     isProcessing := false;
     error := error s;
     activeTab := ViewLedgers;
     inputMode := inputMode s |}.

(** Lines 37-41: the extraction threw. *)
Definition handleFileUpload_rejected (s : AppState) : AppState :=
  {| transactions := transactions s;
     isProcessing := false;
     error := Some uploadFailedMessage;
     activeTab := activeTab s;
     inputMode := inputMode s |}.

(** Lines 45-48. *)
Definition handleManualEntry (newTxs : list Transaction) (s : AppState)
  : AppState :=
  {| transactions := transactions s ++ newTxs;
     isProcessing := isProcessing s;
     error := error s;
     activeTab := ViewLedgers;
     inputMode := inputMode s |}.

(** Lines 145-150: the reset button; [confirmed] is what [confirm] returned. *)
Definition resetWorkspace (confirmed : bool) (s : AppState) : AppState :=
  if confirmed
  then {| transactions := [];
          isProcessing := isProcessing s;
          error := error s;
          activeTab := ViewCapture;
          inputMode := inputMode s |}
  else s.

Definition setActiveTab (v : ViewMode) (s : AppState) : AppState :=
  {| transactions := transactions s;
     isProcessing := isProcessing s;
     error := error s;
     activeTab := v;
     inputMode := inputMode s |}.

Definition setInputMode (m : InputMode) (s : AppState) : AppState :=
  {| transactions := transactions s;
     isProcessing := isProcessing s;
     error := error s;
     activeTab := activeTab s;
     inputMode := m |}.

Definition ViewMode_eqb (a b : ViewMode) : bool :=
  match a, b with
  | ViewCapture, ViewCapture => true
  | ViewTopsheet, ViewTopsheet => true
  | ViewLedgers, ViewLedgers => true
  | _, _ => false
  end.

(** [transactions.length > 0], the guard of lines 116, 143 and 199. *)
Definition hasTransactions (s : AppState) : bool :=
  Nat.ltb 0 (List.length (transactions s)).

(** Line 116: the tab navigation. *)
Definition navRendered (s : AppState) : bool := hasTransactions s.

(** Line 143: the reset button. *)
Definition resetRendered (s : AppState) : bool := hasTransactions s.

(** Line 162: the introduction. *)
Definition introRendered (s : AppState) : bool :=
  Nat.eqb (List.length (transactions s)) 0
  && ViewMode_eqb (activeTab s) ViewCapture.

(** Line 174: the capture view, with the input mode buttons and the
    uploader or the manual voucher form. *)
Definition captureRendered (s : AppState) : bool :=
  ViewMode_eqb (activeTab s) ViewCapture.

(** Lines 174 and 199: the "View Financial Summary" button. *)
Definition summaryButtonRendered (s : AppState) : bool :=
  captureRendered s && hasTransactions s.

(** Line 212. *)
Definition topSheetRendered (s : AppState) : bool :=
  ViewMode_eqb (activeTab s) ViewTopsheet.

(** Line 216. *)
Definition ledgersViewRendered (s : AppState) : bool :=
  ViewMode_eqb (activeTab s) ViewLedgers.

(** What can happen to the component.  The first four come from the
    child components and the extraction service, whose code is outside
    this file; the last four are clicks on controls of [App] itself. *)
Inductive Event : Type :=
  | EvUploadBegin
  | EvUploadResolved (extracted : list Transaction)
  | EvUploadRejected
  | EvManualEntry (newTxs : list Transaction)
  | EvNavTab (v : ViewMode)
  | EvReset (confirmed : bool)
  | EvInputMode (m : InputMode)
  | EvViewSummary.

Definition handle (e : Event) (s : AppState) : AppState :=
  match e with
  | EvUploadBegin => handleFileUpload_begin s
  | EvUploadResolved extracted => handleFileUpload_resolved extracted s
  | EvUploadRejected => handleFileUpload_rejected s
  | EvManualEntry newTxs => handleManualEntry newTxs s
  | EvNavTab v => setActiveTab v s
  | EvReset confirmed => resetWorkspace confirmed s
  | EvInputMode m => setInputMode m s
  | EvViewSummary => setActiveTab ViewTopsheet s
  end.

Definition isOwnControl (e : Event) : bool :=
  match e with
  | EvNavTab _ | EvReset _ | EvInputMode _ | EvViewSummary => true
  | _ => false
  end.

(** A click needs its control on the page.  A callback of a child
    component is admitted in every state: an extraction in flight
    continues whatever the page shows by then. *)
Definition enabled (s : AppState) (e : Event) : bool :=
  match e with
  | EvNavTab _ => navRendered s
  | EvReset _ => resetRendered s
  | EvInputMode _ => captureRendered s
  | EvViewSummary => summaryButtonRendered s
  | _ => true
  end.

(** [steps s es s']: the events [es], each enabled when it happens, take
    the component from [s] to [s']. *)
Inductive steps : AppState -> list Event -> AppState -> Prop :=
  | steps_nil : forall s, steps s [] s
  | steps_cons : forall s e es s',
      enabled s e = true ->
      steps (handle e s) es s' ->
      steps s (e :: es) s'.

(** The transactions the events of a trace hand to the component. *)
Definition added (es : list Event) : list Transaction :=
  flat_map (fun e => match e with
                     | EvUploadResolved x | EvManualEntry x => x
                     | _ => []
                     end) es.

Definition isConfirmedReset (e : Event) : bool :=
  match e with
  | EvReset true => true
  | _ => false
  end.

Definition touchesError (e : Event) : bool :=
  match e with
  | EvUploadBegin | EvUploadRejected => true
  | _ => false
  end.

(** Later vouchers for the demo journal: one for a known party, dated
    after all of its records, and one for a new party. *)
Definition demoLater : list Transaction :=
  [ tx0 "2024-03-01" 25 0 "ABC Traders" Asset;
    tx0 "2024-01-02" 0 70 "Capital" Equity ].

Definition demoLaterLedger : AccountLedger :=
  ledgerOf "ABC Traders"
    (partyTxsOf codeUnitCompare (demoTransactions ++ demoLater) "ABC Traders").

Definition demoLastEntry : LedgerEntry :=
  mkLedgerEntry (tx0 "2024-01-05" 50 0 "ABC Traders" Expense) 650 Dr.

(** A party booked first as income and last as an asset. *)
Definition mixedTransactions : list Transaction :=
  [ tx0 "2024-01-01" 0 100 "X" Income; tx0 "2024-01-02" 30 0 "X" Asset ].

Definition mixedLedger : AccountLedger :=
  ledgerOf "X" (partyTxsOf codeUnitCompare mixedTransactions "X").

Definition mixedLastEntry : LedgerEntry :=
  mkLedgerEntry (tx0 "2024-01-02" 30 0 "X" Asset) 130 Dr.

Definition demoTrace : list Event :=
  [ EvUploadBegin; EvUploadRejected; EvInputMode InputManual;
    EvManualEntry demoTransactions; EvNavTab ViewTopsheet;
    EvUploadResolved demoLater ].

(** ** The derivation over binary64 amounts

    [debit], [credit] and the three accumulators are JavaScript numbers:
    [+] and [-] round to the nearest double, and [>= 0] is false on NaN. *)

Module IEEE.
Import Floats.PrimFloat.
#[local] Set Warnings "-inexact-float".

Record Transaction : Type := mkTransaction {
  id : string;
  date : string;
  particulars : string;
  debit : float;
  credit : float;
  party : string;
  accountType : AccountType
}.

Record LedgerEntry : Type := mkLedgerEntry {
  entry_tx : Transaction;
  balance : float;
  balanceType : BalanceType
}.

Record AccountLedger : Type := mkAccountLedger {
  accountName : string;
  entries : list LedgerEntry;
  openingBalance : float;
  closingBalance : float;
  closingBalanceType : BalanceType;
  totalDebit : float;
  totalCredit : float
}.

(** Lines 77-79 and 91-93. *)
Definition signAdjusted (x : float) (isAE : bool) : BalanceType :=
  if (0 <=? x)%float
  then (if isAE then Dr else Cr)
  else (if isAE then Cr else Dr).

Definition Locals : Type := (float * float * float)%type.

(** Lines 62-81. *)
Definition visit (st : Locals) (tx : Transaction) : Locals * LedgerEntry :=
  let '(runningBalance, totalDebit, totalCredit) := st in
  let totalDebit := (totalDebit + debit tx)%float in
  let totalCredit := (totalCredit + credit tx)%float in
  let isAE := isAssetOrExpense (accountType tx) in
  let runningBalance :=
    if isAE
    then (runningBalance + (debit tx - credit tx))%float
    else (runningBalance + (credit tx - debit tx))%float in
  ((runningBalance, totalDebit, totalCredit),
   {| entry_tx := tx;
      balance := runningBalance;
      balanceType := signAdjusted runningBalance isAE |}).

Fixpoint walk (st : Locals) (txs : list Transaction)
  : Locals * list LedgerEntry :=
  match txs with
  | [] => (st, [])
  | tx :: rest =>
      let '(st1, e) := visit st tx in
      let '(st2, es) := walk st1 rest in
      (st2, e :: es)
  end.

Definition firstIsAssetOrExpense (partyTxs : list Transaction) : bool :=
  match partyTxs with
  | [] => false
  | firstTx :: _ => isAssetOrExpense (accountType firstTx)
  end.

Section Derivation.
Variable localeCompare : string -> string -> Z.

Definition byDate (a b : Transaction) : Z :=
  localeCompare (date a) (date b).

(** Lines 54-56. *)
Definition partyTxsOf (transactions : list Transaction) (p : string)
  : list Transaction :=
  Array_sort byDate
    (filter (fun t => String.eqb (party t) p) transactions).

(** Lines 58-96. *)
Definition ledgerOf (p : string) (partyTxs : list Transaction)
  : AccountLedger :=
  let '((runningBalance, totalDebit, totalCredit), entries) :=
    walk (0%float, 0%float, 0%float) partyTxs in
  let isAE := firstIsAssetOrExpense partyTxs in
  {| accountName := p;
     entries := entries;
     openingBalance := 0%float;
     closingBalance := runningBalance;
     closingBalanceType := signAdjusted runningBalance isAE;
     totalDebit := totalDebit;
     totalCredit := totalCredit |}.

(** Lines 50-98. *)
Definition ledgers (transactions : list Transaction)
  : list AccountLedger :=
  let parties := Array_from_Set (map party transactions) in
  map (fun p => ledgerOf p (partyTxsOf transactions p)) parties.
End Derivation.

(** Vocabulary. *)

Definition ledgerTxs (L : AccountLedger) : list Transaction :=
  map entry_tx (entries L).

Definition ofParty (p : string) (T : list Transaction) : list Transaction :=
  filter (fun t => String.eqb (party t) p) T.

(** The amounts [f] of the rows added one at a time, from 0, in the
    order of the list, each addition rounded. *)
Definition runningSum (f : Transaction -> float) (txs : list Transaction)
  : float :=
  fold_left (fun acc t => (acc + f t)%float) txs 0%float.

Definition debitLessCredit (t : Transaction) : float :=
  (debit t - credit t)%float.

Definition creditLessDebit (t : Transaction) : float :=
  (credit t - debit t)%float.

(** What a row adds to the running balance. *)
Definition rowAmount (t : Transaction) : float :=
  if isAssetOrExpense (accountType t)
  then debitLessCredit t
  else creditLessDebit t.

Definition row (d : string) (dr cr : float) (p : string) (ty : AccountType)
  : Transaction :=
  {| id := ""%string; date := d; particulars := ""%string;
     debit := dr; credit := cr; party := p; accountType := ty |}.

(** Three debits of one party on one date, and the same three in the
    opposite input order. *)
Definition sameDay : list Transaction :=
  [ row "2024-01-01" 0.1 0 "P" Asset;
    row "2024-01-01" 0.2 0 "P" Asset;
    row "2024-01-01" 0.3 0 "P" Asset ].

Definition sameDayReversed : list Transaction :=
  [ row "2024-01-01" 0.3 0 "P" Asset;
    row "2024-01-01" 0.2 0 "P" Asset;
    row "2024-01-01" 0.1 0 "P" Asset ].

(** The same three debits on three dates, another party's record among
    them, and a reordering of that input. *)
Definition threeDays : list Transaction :=
  [ row "2024-01-02" 0.2 0 "P" Asset;
    row "2024-01-01" 0.1 0 "P" Asset;
    row "2024-01-05" 7 0 "Q" Expense;
    row "2024-01-03" 0.3 0 "P" Asset ].

Definition threeDaysShuffled : list Transaction :=
  [ row "2024-01-03" 0.3 0 "P" Asset;
    row "2024-01-05" 7 0 "Q" Expense;
    row "2024-01-01" 0.1 0 "P" Asset;
    row "2024-01-02" 0.2 0 "P" Asset ].

(** Scenario 1 of the specification and the ledger it asks for. *)
Definition abcTraders : list Transaction :=
  [ row "2024-01-01" 1000 0 "ABC Traders" Asset;
    row "2024-01-05" 0 400 "ABC Traders" Asset ].

Definition abcTradersLedger : AccountLedger :=
  {| accountName := "ABC Traders";
     entries :=
       [ mkLedgerEntry (row "2024-01-01" 1000 0 "ABC Traders" Asset) 1000 Dr;
         mkLedgerEntry (row "2024-01-05" 0 400 "ABC Traders" Asset) 600 Dr ];
     openingBalance := 0;
     closingBalance := 600;
     closingBalanceType := Dr;
     totalDebit := 1000;
     totalCredit := 400 |}.

(** The doubles that print as 0.6000000000000001, 0.6, 0.2 and
    0.20000000000000004. *)
Definition sixTenthsAndUlp : float := 0x1.3333333333334p-1.
Definition sixTenths : float := 0x1.3333333333333p-1.
Definition twoTenths : float := 0x1.999999999999ap-3.
Definition twoTenthsAndUlp : float := 0x1.999999999999bp-3.

(** An asset account: a debit, a credit of the same amount, a debit. *)
Definition paidAndBilled : list Transaction :=
  [ row "2024-01-01" 0.1 0 "P" Asset;
    row "2024-01-02" 0 0.1 "P" Asset;
    row "2024-01-03" 0.2 0 "P" Asset ].

End IEEE.

(** * Checks on the scenarios of the specification *)

Example scenario_abc_traders :
  ledgers codeUnitCompare
    [ tx0 "2024-01-01" 1000 0 "ABC Traders" Asset;
      tx0 "2024-01-05" 0 400 "ABC Traders" Asset ]
  = [ {| accountName := "ABC Traders";
         entries :=
           [ mkLedgerEntry (tx0 "2024-01-01" 1000 0 "ABC Traders" Asset) 1000 Dr;
             mkLedgerEntry (tx0 "2024-01-05" 0 400 "ABC Traders" Asset) 600 Dr ];
         openingBalance := 0;
         closingBalance := 600;
         closingBalanceType := Dr;
         totalDebit := 1000;
         totalCredit := 400 |} ].
Proof. reflexivity. Qed.

Example scenario_sales_revenue :
  ledgers codeUnitCompare [ tx0 "2024-02-01" 0 5000 "Sales Revenue" Income ]
  = [ {| accountName := "Sales Revenue";
         entries :=
           [ mkLedgerEntry (tx0 "2024-02-01" 0 5000 "Sales Revenue" Income)
               5000 Cr ];
         openingBalance := 0;
         closingBalance := 5000;
         closingBalanceType := Cr;
         totalDebit := 0;
         totalCredit := 5000 |} ].
Proof. reflexivity. Qed.

Example scenario_overpayment :
  map (fun L => map (fun e => (balance e, balanceType e)) (entries L))
    (ledgers codeUnitCompare [ tx0 "2024-03-01" 0 500 "Cash" Asset ])
  = [ [ (-500, Cr) ] ].
Proof. reflexivity. Qed.

Example scenario_interleaved :
  map (fun L => (accountName L, map (fun e => debit (entry_tx e)) (entries L)))
    (ledgers codeUnitCompare
       [ tx0 "2024-01-03" 1 0 "B" Asset; tx0 "2024-01-02" 2 0 "A" Asset;
         tx0 "2024-01-01" 3 0 "B" Asset; tx0 "2024-01-02" 4 0 "A" Asset ])
  = [ ("B"%string, [3; 1]); ("A"%string, [2; 4]) ].
Proof. reflexivity. Qed.

(** Mixed account types inside one party: every step follows its own
    record, the closing label follows the first record only. *)
Example scenario_mixed_types :
  map (fun L => (map (fun e => (balance e, balanceType e)) (entries L),
                 closingBalance L, closingBalanceType L))
    (ledgers codeUnitCompare
       [ tx0 "2024-01-01" 100 0 "X" Asset; tx0 "2024-01-02" 100 0 "X" Income ])
  = [ ([ (100, Dr); (0, Cr) ], 0, Dr) ].
Proof. reflexivity. Qed.

Example scenario_store :
  ledgersSt codeUnitCompare 0%nat
    [ [ tx0 "2024-01-05" 0 400 "P" Asset; tx0 "2024-01-01" 1000 0 "P" Asset ] ]
  = (ledgers codeUnitCompare
       [ tx0 "2024-01-05" 0 400 "P" Asset; tx0 "2024-01-01" 1000 0 "P" Asset ],
     [ [ tx0 "2024-01-05" 0 400 "P" Asset; tx0 "2024-01-01" 1000 0 "P" Asset ];
       [ tx0 "2024-01-01" 1000 0 "P" Asset; tx0 "2024-01-05" 0 400 "P" Asset ] ]).
Proof. reflexivity. Qed.

(** * Facts about the host library *)

Lemma existsb_eqb_In (x : string) (s : list string) :
  existsb (String.eqb x) s = true <-> In x s.
Proof.
  rewrite existsb_exists. split.
  - intros [y [Hy E]]. apply String.eqb_eq in E. now subst.
  - intros H. exists x. split; [assumption | apply String.eqb_refl].
Qed.

Lemma Set_add_In (s : list string) (x y : string) :
  In y (Set_add s x) <-> In y s \/ y = x.
Proof.
  unfold Set_add. destruct (existsb (String.eqb x) s) eqn:E.
  - apply existsb_eqb_In in E. split; [tauto |].
    intros [H | ->]; assumption.
  - rewrite in_app_iff. simpl. intuition.
Qed.

Lemma Set_add_NoDup (s : list string) (x : string) :
  NoDup s -> NoDup (Set_add s x).
Proof.
  intros H. unfold Set_add.
  destruct (existsb (String.eqb x) s) eqn:E; [assumption |].
  apply (Permutation_NoDup (Permutation_cons_append s x)).
  constructor; [| assumption].
  intros Hin. apply existsb_eqb_In in Hin. congruence.
Qed.

Lemma Set_add_grows (s : list string) (x : string) :
  exists r, Set_add s x = s ++ r.
Proof.
  unfold Set_add. destruct (existsb (String.eqb x) s).
  - exists []. now rewrite app_nil_r.
  - now exists [x].
Qed.

Lemma fold_Set_add_In (l : list string) :
  forall acc y, In y (fold_left Set_add l acc) <-> In y acc \/ In y l.
Proof.
  induction l as [| x l IH]; intros acc y; simpl.
  - tauto.
  - rewrite IH, Set_add_In. intuition.
Qed.

Lemma fold_Set_add_NoDup (l : list string) :
  forall acc, NoDup acc -> NoDup (fold_left Set_add l acc).
Proof.
  induction l as [| x l IH]; intros acc H; simpl.
  - assumption.
  - apply IH, Set_add_NoDup, H.
Qed.

Lemma fold_Set_add_grows (l : list string) :
  forall acc, exists r, fold_left Set_add l acc = acc ++ r.
Proof.
  induction l as [| x l IH]; intros acc; simpl.
  - exists []. now rewrite app_nil_r.
  - destruct (IH (Set_add acc x)) as [r Hr].
    destruct (Set_add_grows acc x) as [r0 Hr0].
    exists (r0 ++ r). rewrite Hr, Hr0. now rewrite app_assoc.
Qed.

Lemma prefix_before_absent (acc r a b : list string) (p : string) :
  acc ++ r = a ++ p :: b -> ~ In p acc -> exists a', a = acc ++ a'.
Proof.
  revert a. induction acc as [| c acc IH]; intros a E Hn.
  - now exists a.
  - destruct a as [| c' a]; simpl in E; injection E as Hc E.
    + subst c. exfalso. apply Hn. now left.
    + subst c'. destruct (IH a E) as [a' ->].
      * intros Hin. apply Hn. now right.
      * now exists a'.
Qed.

(** Where a value sits in [Array_from_Set]: everything the input shows
    before its first occurrence is already listed before it. *)
Lemma fold_Set_add_first (l : list string) :
  forall acc a p b,
    fold_left Set_add l acc = a ++ p :: b -> ~ In p acc ->
    exists u v, l = u ++ p :: v /\ ~ In p u /\ forall q, In q u -> In q a.
Proof.
  induction l as [| x l IH]; intros acc a p b E Hn; simpl in E.
  - exfalso. apply Hn. rewrite E. apply in_elt.
  - destruct (String.eqb_spec p x) as [-> | Hpx].
    + exists [], l. repeat split; [tauto | intros q []].
    + assert (Hn' : ~ In p (Set_add acc x)) by (rewrite Set_add_In; tauto).
      destruct (IH _ _ _ _ E Hn') as (u & v & El & Hu & Hsub).
      exists (x :: u), v. repeat split.
      * now rewrite El.
      * simpl. intros [Hx | Hx]; [congruence | tauto].
      * intros q [<- | Hq]; [| now apply Hsub].
        destruct (fold_Set_add_grows l (Set_add acc x)) as [r Hr].
        rewrite Hr in E.
        destruct (prefix_before_absent _ _ _ _ _ E Hn') as [a' ->].
        apply in_or_app. left. apply Set_add_In. now right.
Qed.

Section SortFacts.
Context {A : Type}.
Variable cmp : A -> A -> Z.

Lemma sort_insert_perm (x : A) (l : list A) :
  Permutation (sort_insert cmp x l) (x :: l).
Proof.
  induction l as [| y l IH]; simpl.
  - reflexivity.
  - destruct (cmp x y <=? 0).
    + reflexivity.
    + rewrite IH. apply perm_swap.
Qed.

Lemma Array_sort_perm (l : list A) : Permutation (Array_sort cmp l) l.
Proof.
  induction l as [| x l IH]; simpl.
  - constructor.
  - rewrite sort_insert_perm. now constructor.
Qed.

Lemma Array_sort_length (l : list A) :
  List.length (Array_sort cmp l) = List.length l.
Proof. apply Permutation_length, Array_sort_perm. Qed.

(** Stability: a class of elements none of which follows another keeps
    its input order. *)
Lemma sort_insert_filter (P : A -> bool) :
  (forall x y, P x = true -> P y = true -> cmp x y <= 0) ->
  forall x l, filter P (sort_insert cmp x l) = filter P (x :: l).
Proof.
  intros HP x l. induction l as [| y l IH]; [reflexivity |].
  cbn [sort_insert]. destruct (cmp x y <=? 0) eqn:E; [reflexivity |].
  cbn [filter] in *. rewrite IH.
  destruct (P x) eqn:Px, (P y) eqn:Py; try reflexivity.
  apply Z.leb_gt in E. specialize (HP x y Px Py). lia.
Qed.

Lemma Array_sort_filter (P : A -> bool) :
  (forall x y, P x = true -> P y = true -> cmp x y <= 0) ->
  forall l, filter P (Array_sort cmp l) = filter P l.
Proof.
  intros HP l. induction l as [| x l IH]; [reflexivity |].
  cbn [Array_sort]. rewrite sort_insert_filter by assumption.
  cbn [filter]. now rewrite IH.
Qed.

Hypothesis cmp_total : forall x y, 0 < cmp x y -> cmp y x <= 0.
Hypothesis cmp_trans :
  forall x y z, cmp x y <= 0 -> cmp y z <= 0 -> cmp x z <= 0.

Lemma sort_insert_sorted (x : A) (l : list A) :
  StronglySorted (fun a b => cmp a b <= 0) l ->
  StronglySorted (fun a b => cmp a b <= 0) (sort_insert cmp x l).
Proof.
  induction 1 as [| y l Hs IH Hy]; simpl.
  - repeat constructor.
  - destruct (cmp x y <=? 0) eqn:E.
    + apply Z.leb_le in E. constructor; [now constructor |].
      constructor; [assumption |].
      eapply Forall_impl; [| exact Hy]. intros z Hz. eauto.
    + apply Z.leb_gt in E. constructor; [assumption |].
      apply Forall_forall. intros z Hz.
      apply (Permutation_in _ (sort_insert_perm x l)) in Hz.
      destruct Hz as [<- | Hz]; [now apply cmp_total |].
      rewrite Forall_forall in Hy. now apply Hy.
Qed.

Lemma Array_sort_sorted (l : list A) :
  StronglySorted (fun a b => cmp a b <= 0) (Array_sort cmp l).
Proof.
  induction l as [| x l IH]; simpl.
  - constructor.
  - now apply sort_insert_sorted.
Qed.
Lemma tied_refl (x : A) : tied cmp x x = true.
Proof.
  unfold tied. assert (cmp x x <= 0).
  { destruct (Z_lt_le_dec 0 (cmp x x)); [now apply cmp_total | lia]. }
  apply andb_true_intro. split; now apply Z.leb_le.
Qed.

Lemma tied_sym (x y : A) : tied cmp x y = tied cmp y x.
Proof. unfold tied. apply andb_comm. Qed.

(** The host does not fix a sorting algorithm, only stability; for a
    consistent comparator that leaves one possible result. *)
Lemma stable_sorted_unique (s : list A) :
  forall s',
    StronglySorted (fun a b => cmp a b <= 0) s ->
    StronglySorted (fun a b => cmp a b <= 0) s' ->
    (forall x, filter (tied cmp x) s = filter (tied cmp x) s') ->
    s = s'.
Proof.
  induction s as [| a s IH]; intros [| b s'] Hs Hs' Hf.
  - reflexivity.
  - specialize (Hf b). cbn [filter] in Hf. rewrite tied_refl in Hf.
    discriminate.
  - specialize (Hf a). cbn [filter] in Hf. rewrite tied_refl in Hf.
    discriminate.
  - inversion Hs as [| ? ? Hs1 Ha]; subst.
    inversion Hs' as [| ? ? Hs1' Hb]; subst.
    rewrite Forall_forall in Ha, Hb.
    assert (Hab : tied cmp a b = true).
    { destruct (tied cmp a b) eqn:E; [reflexivity |].
      pose proof (Hf a) as Fa. pose proof (Hf b) as Fb.
      cbn [filter] in Fa, Fb.
      rewrite tied_refl in Fa, Fb. rewrite E in Fa.
      rewrite tied_sym, E in Fb.
      assert (Ia : In a s').
      { eapply (proj1 (filter_In _ _ _)). rewrite <- Fa. now left. }
      assert (Ib : In b s).
      { eapply (proj1 (filter_In _ _ _)). rewrite Fb. now left. }
      unfold tied in E. apply andb_false_iff in E.
      specialize (Ha b Ib). specialize (Hb a Ia).
      destruct E as [E | E]; apply Z.leb_gt in E; lia. }
    assert (a = b).
    { specialize (Hf a). cbn [filter] in Hf.
      rewrite tied_refl, Hab in Hf. congruence. }
    subst b. f_equal. apply IH; try assumption.
    intros x. specialize (Hf x). cbn [filter] in Hf.
    destruct (tied cmp x a); congruence.
Qed.

Lemma Array_sort_unique (l s : list A) :
  StronglySorted (fun a b => cmp a b <= 0) s ->
  (forall x, filter (tied cmp x) s = filter (tied cmp x) l) ->
  s = Array_sort cmp l.
Proof.
  intros Hs Hf. apply stable_sorted_unique; [assumption | |].
  - apply Array_sort_sorted.
  - intros x. rewrite Hf. symmetry. apply Array_sort_filter.
    intros a b Ha Hb. unfold tied in Ha, Hb.
    apply andb_true_iff in Ha, Hb. rewrite !Z.leb_le in Ha, Hb.
    apply (cmp_trans a x b); tauto.
Qed.
End SortFacts.

(** * Facts about the walk *)

Lemma visit_eq (rb td tc : Z) (tx : Transaction) :
  visit (rb, td, tc) tx =
  ((rb + naturalAmount tx, td + debit tx, tc + credit tx),
   {| entry_tx := tx;
      balance := rb + naturalAmount tx;
      balanceType :=
        signAdjusted (rb + naturalAmount tx)
          (isAssetOrExpense (accountType tx)) |}).
Proof.
  unfold visit, naturalAmount. now destruct (accountType tx).
Qed.

Lemma walk_cons (st : Locals) (tx : Transaction) (rest : list Transaction) :
  walk st (tx :: rest) =
  (fst (walk (fst (visit st tx)) rest),
   snd (visit st tx) :: snd (walk (fst (visit st tx)) rest)).
Proof.
  cbn [walk]. destruct (visit st tx) as [st1 e]. cbn [fst snd].
  now destruct (walk st1 rest).
Qed.

Lemma sumZ_cons (x : Z) (l : list Z) : sumZ (x :: l) = x + sumZ l.
Proof. reflexivity. Qed.

Lemma walk_locals (txs : list Transaction) :
  forall rb td tc,
    fst (walk (rb, td, tc) txs) =
    (rb + sumZ (map naturalAmount txs),
     td + sumZ (map debit txs),
     tc + sumZ (map credit txs)).
Proof.
  induction txs as [| tx rest IH]; intros rb td tc.
  - cbn. now rewrite !Z.add_0_r.
  - rewrite walk_cons, visit_eq. cbn [fst map]. rewrite IH, !sumZ_cons.
    now rewrite !Z.add_assoc.
Qed.

Lemma walk_entry_tx (txs : list Transaction) :
  forall st, map entry_tx (snd (walk st txs)) = txs.
Proof.
  induction txs as [| tx rest IH]; intros [[rb td] tc]; [reflexivity |].
  rewrite walk_cons, visit_eq. cbn [fst snd map entry_tx]. now rewrite IH.
Qed.

Lemma walk_balance (txs : list Transaction) :
  forall rb td tc k e,
    nth_error (snd (walk (rb, td, tc) txs)) k = Some e ->
    balance e = rb + sumZ (map naturalAmount (firstn (S k) txs)).
Proof.
  induction txs as [| tx rest IH]; intros rb td tc k e H.
  - now destruct k.
  - rewrite walk_cons, visit_eq in H. cbn [fst snd] in H.
    rewrite firstn_cons. cbn [map]. rewrite sumZ_cons.
    destruct k as [| k]; cbn [nth_error] in H.
    + injection H as <-. simpl. lia.
    + apply IH in H. rewrite H. lia.
Qed.

Lemma walk_label (txs : list Transaction) :
  forall st e,
    In e (snd (walk st txs)) ->
    balanceType e =
    signAdjusted (balance e) (isAssetOrExpense (accountType (entry_tx e))).
Proof.
  induction txs as [| tx rest IH]; intros [[rb td] tc] e H.
  - destruct H.
  - rewrite walk_cons, visit_eq in H. cbn [fst snd] in H.
    destruct H as [<- | H]; [reflexivity | eauto].
Qed.

Lemma signAdjusted_Dr (x : Z) (t : AccountType) :
  signAdjusted x (isAssetOrExpense t) = Dr <->
  (debitNatured t /\ x >= 0) \/ (creditNatured t /\ x < 0).
Proof.
  unfold signAdjusted, debitNatured, creditNatured.
  destruct (Z.geb_spec x 0) as [Hge | Hlt], t; cbn [isAssetOrExpense]; split;
    intros H;
    try reflexivity; try discriminate;
    try solve [left; split; [auto | lia]];
    try solve [right; split; [auto | lia]];
    destruct H as [[[Ht | Ht] Hx] | [[Ht | [Ht | Ht]] Hx]];
    try discriminate; lia.
Qed.

Lemma signAdjusted_Cr (x : Z) (b : bool) :
  signAdjusted x b = Cr <-> signAdjusted x b <> Dr.
Proof.
  destruct (signAdjusted x b); split; congruence.
Qed.

(** * Shape of the output *)

Lemma ledgerOf_eq (p : string) (txs : list Transaction) :
  ledgerOf p txs =
  {| accountName := p;
     entries := snd (walk (0, 0, 0) txs);
     openingBalance := 0;
     closingBalance := sumZ (map naturalAmount txs);
     closingBalanceType :=
       signAdjusted (sumZ (map naturalAmount txs))
         (firstIsAssetOrExpense txs);
     totalDebit := sumZ (map debit txs);
     totalCredit := sumZ (map credit txs) |}.
Proof.
  unfold ledgerOf. pose proof (walk_locals txs 0 0 0) as H.
  destruct (walk (0, 0, 0) txs) as [[[rb td] tc] es].
  cbn [fst snd] in *. now injection H as -> -> ->.
Qed.

Lemma accountName_ledgerOf (p : string) (txs : list Transaction) :
  accountName (ledgerOf p txs) = p.
Proof. now rewrite ledgerOf_eq. Qed.

Lemma in_ledgers (cmp : string -> string -> Z) (T : list Transaction)
  (L : AccountLedger) :
  In L (ledgers cmp T) <->
  exists p, In p (map party T) /\ L = ledgerOf p (partyTxsOf cmp T p).
Proof.
  unfold ledgers, Array_from_Set. rewrite in_map_iff. split.
  - intros (p & <- & Hp). exists p. split; [| reflexivity].
    apply fold_Set_add_In in Hp. now destruct Hp.
  - intros (p & Hp & ->). exists p. split; [reflexivity |].
    apply fold_Set_add_In. now right.
Qed.

Lemma ledgers_names (cmp : string -> string -> Z) (T : list Transaction) :
  map accountName (ledgers cmp T) = Array_from_Set (map party T).
Proof.
  unfold ledgers. rewrite map_map. rewrite <- (map_id (Array_from_Set _)) at 2.
  apply map_ext. intros p. now rewrite ledgerOf_eq.
Qed.

Lemma partyTxsOf_perm (cmp : string -> string -> Z) (T : list Transaction)
  (p : string) :
  Permutation (partyTxsOf cmp T p) (ofParty p T).
Proof. apply Array_sort_perm. Qed.

Lemma ofParty_nonempty (T : list Transaction) (p : string) :
  In p (map party T) -> ofParty p T <> [].
Proof.
  intros H. apply in_map_iff in H. destruct H as (t & <- & Ht).
  assert (Hin : In t (ofParty (party t) T)).
  { apply filter_In. split; [assumption | apply String.eqb_refl]. }
  intros E. rewrite E in Hin. destruct Hin.
Qed.

Lemma partyTxsOf_nonempty (cmp : string -> string -> Z)
  (T : list Transaction) (p : string) :
  In p (map party T) -> partyTxsOf cmp T p <> [].
Proof.
  intros H E. apply (ofParty_nonempty T p H).
  apply Permutation_nil. rewrite <- E. apply partyTxsOf_perm.
Qed.

(** Every output ledger is [ledgerOf] of its own name. *)
Lemma ledger_inv (cmp : string -> string -> Z) (T : list Transaction)
  (L : AccountLedger) :
  In L (ledgers cmp T) ->
  In (accountName L) (map party T) /\
  L = ledgerOf (accountName L) (partyTxsOf cmp T (accountName L)).
Proof.
  intros H. apply in_ledgers in H. destruct H as (p & Hp & ->).
  rewrite ledgerOf_eq. cbn [accountName]. rewrite <- ledgerOf_eq. tauto.
Qed.


Lemma ledgerTxs_ledgerOf (p : string) (txs : list Transaction) :
  ledgerTxs (ledgerOf p txs) = txs.
Proof.
  unfold ledgerTxs. rewrite ledgerOf_eq. apply walk_entry_tx.
Qed.

(** * The running balance *)



(** C2.  An entry is labelled Dr exactly when its own account type is
    debit-natured and its balance is at least 0, or its account type is
    credit-natured and its balance is negative; in every other case it is
    labelled Cr. *)
Theorem balance_label_rule
  (cmp : string -> string -> Z) (T : list Transaction)
  (L : AccountLedger) (e : LedgerEntry) :
  In L (ledgers cmp T) ->
  In e (entries L) ->
  (balanceType e = Dr <->
   (debitNatured (accountType (entry_tx e)) /\ balance e >= 0) \/
   (creditNatured (accountType (entry_tx e)) /\ balance e < 0)) /\
  (balanceType e = Cr <->
   ~ ((debitNatured (accountType (entry_tx e)) /\ balance e >= 0) \/
      (creditNatured (accountType (entry_tx e)) /\ balance e < 0))).
Proof.
  intros HL He. apply ledger_inv in HL. destruct HL as [_ HL].
  rewrite HL, ledgerOf_eq in He. cbn [entries] in He.
  apply walk_label in He. rewrite He, signAdjusted_Cr, signAdjusted_Dr.
  tauto.
Qed.

Lemma balance_label_rule_witness :
  (balanceType demoEntry = Dr <->
   (debitNatured (accountType (entry_tx demoEntry)) /\
    balance demoEntry >= 0) \/
   (creditNatured (accountType (entry_tx demoEntry)) /\
    balance demoEntry < 0)) /\
  (balanceType demoEntry = Cr <->
   ~ ((debitNatured (accountType (entry_tx demoEntry)) /\
       balance demoEntry >= 0) \/
      (creditNatured (accountType (entry_tx demoEntry)) /\
       balance demoEntry < 0))).
Proof.
  apply (balance_label_rule codeUnitCompare demoTransactions demoLedger).
  - vm_compute. left. reflexivity.
  - vm_compute. right. left. reflexivity.
Defined.

(** * The closing balance *)


Lemma firstIsAssetOrExpense_cons (t : Transaction) (rest : list Transaction) :
  firstIsAssetOrExpense (t :: rest) = isAssetOrExpense (accountType t).
Proof. reflexivity. Qed.



(** C8.  Every output ledger has at least one entry, its opening balance
    is 0, and its closing balance is the balance of its last entry. *)
Theorem ledger_nonempty_and_closes_on_last_entry
  (cmp : string -> string -> Z) (T : list Transaction) (L : AccountLedger) :
  In L (ledgers cmp T) ->
  entries L <> [] /\
  openingBalance L = 0 /\
  exists es e, entries L = es ++ [e] /\ closingBalance L = balance e.
Proof.
  intros HL. apply ledger_inv in HL. destruct HL as [Hp HL].
  pose proof (partyTxsOf_nonempty cmp T _ Hp) as Hne.
  set (txs := partyTxsOf cmp T (accountName L)) in *.
  assert (Hes : entries L = snd (walk (0, 0, 0) txs))
    by (rewrite HL at 1; now rewrite ledgerOf_eq).
  assert (Hne' : entries L <> []).
  { intros E. apply Hne. rewrite <- (walk_entry_tx txs (0, 0, 0)), <- Hes, E.
    reflexivity. }
  split; [assumption |].
  split; [rewrite HL; now rewrite ledgerOf_eq |].
  destruct (exists_last Hne') as (es & e & E).
  exists es, e. split; [assumption |].
  assert (Hk : nth_error (snd (walk (0, 0, 0) txs)) (List.length es) = Some e).
  { rewrite <- Hes, E, nth_error_app2, Nat.sub_diag by apply Nat.le_refl.
    reflexivity. }
  rewrite (walk_balance _ _ _ _ _ _ Hk).
  rewrite firstn_all2.
  - rewrite HL at 1. now rewrite ledgerOf_eq.
  - rewrite <- (walk_entry_tx txs (0, 0, 0)) at 1.
    rewrite <- Hes, E, length_map, length_app. simpl. lia.
Qed.

Lemma ledger_nonempty_and_closes_on_last_entry_witness :
  entries demoLedger <> [] /\
  openingBalance demoLedger = 0 /\
  exists es e,
    entries demoLedger = es ++ [e] /\ closingBalance demoLedger = balance e.
Proof.
  apply (ledger_nonempty_and_closes_on_last_entry codeUnitCompare
           demoTransactions demoLedger).
  vm_compute. left. reflexivity.
Defined.

(** * Grouping by party *)

Lemma filter_disjoint_perm {A : Type} (f g : A -> bool) (l : list A) :
  (forall x, f x = true -> g x = true -> False) ->
  Permutation (filter f l ++ filter g l) (filter (fun x => f x || g x) l).
Proof.
  intros Hd. induction l as [| x l IH]; [constructor |].
  cbn [filter]. destruct (f x) eqn:Fx, (g x) eqn:Gx; cbn [orb].
  - destruct (Hd x Fx Gx).
  - cbn. now constructor.
  - rewrite <- Permutation_middle. now constructor.
  - assumption.
Qed.

Lemma flat_map_pointwise_perm {A B : Type} (f g : A -> list B) (l : list A) :
  (forall x, Permutation (f x) (g x)) ->
  Permutation (flat_map f l) (flat_map g l).
Proof.
  intros H. induction l as [| x l IH]; cbn [flat_map].
  - constructor.
  - now apply Permutation_app.
Qed.

Lemma flat_map_ofParty (T : list Transaction) (ps : list string) :
  NoDup ps ->
  Permutation (flat_map (fun p => ofParty p T) ps)
    (filter (fun t => existsb (String.eqb (party t)) ps) T).
Proof.
  induction 1 as [| p ps Hp Hnd IH]; cbn [flat_map existsb].
  - induction T as [| t T IHT]; [constructor | exact IHT].
  - rewrite IH. apply filter_disjoint_perm.
    intros t E1 E2. apply String.eqb_eq in E1. subst p.
    apply Hp. now apply existsb_eqb_In.
Qed.

Lemma flat_map_ledgerTxs (f : string -> list Transaction) (ps : list string) :
  flat_map ledgerTxs (map (fun p => ledgerOf p (f p)) ps) = flat_map f ps.
Proof.
  induction ps as [| p ps IH]; [reflexivity |].
  cbn [map flat_map]. now rewrite ledgerTxs_ledgerOf, IH.
Qed.

Lemma Array_from_Set_In (l : list string) (p : string) :
  In p (Array_from_Set l) <-> In p l.
Proof.
  unfold Array_from_Set. rewrite fold_Set_add_In. simpl. tauto.
Qed.

Lemma Array_from_Set_NoDup (l : list string) : NoDup (Array_from_Set l).
Proof. apply fold_Set_add_NoDup. constructor. Qed.

Lemma ledgers_perm (cmp : string -> string -> Z) (T : list Transaction) :
  Permutation (flat_map ledgerTxs (ledgers cmp T)) T.
Proof.
  unfold ledgers. rewrite flat_map_ledgerTxs.
  rewrite (flat_map_pointwise_perm _ (fun p => ofParty p T))
    by (intros p; apply partyTxsOf_perm).
  rewrite flat_map_ofParty by apply Array_from_Set_NoDup.
  rewrite forallb_filter_id; [reflexivity |].
  apply forallb_forall. intros t Ht.
  apply existsb_eqb_In, Array_from_Set_In, in_map, Ht.
Qed.

Lemma ledgerTxs_perm (cmp : string -> string -> Z) (T : list Transaction)
  (L : AccountLedger) :
  In L (ledgers cmp T) ->
  Permutation (ledgerTxs L) (ofParty (accountName L) T).
Proof.
  intros HL. apply ledger_inv in HL. destruct HL as [_ HL].
  rewrite HL at 1. rewrite ledgerTxs_ledgerOf. apply partyTxsOf_perm.
Qed.

Lemma ledgerTxs_In (cmp : string -> string -> Z) (T : list Transaction)
  (L : AccountLedger) (t : Transaction) :
  In L (ledgers cmp T) ->
  In t (ledgerTxs L) <-> In t T /\ party t = accountName L.
Proof.
  intros HL. pose proof (ledgerTxs_perm cmp T L HL) as HP. split.
  - intros H. apply (Permutation_in _ HP), filter_In in H.
    now rewrite String.eqb_eq in H.
  - intros [H E]. apply (Permutation_in _ (Permutation_sym HP)), filter_In.
    now rewrite String.eqb_eq.
Qed.

Lemma ledgers_same_name (cmp : string -> string -> Z) (T : list Transaction)
  (L L' : AccountLedger) :
  In L (ledgers cmp T) -> In L' (ledgers cmp T) ->
  accountName L = accountName L' -> L = L'.
Proof.
  intros H H' E. apply ledger_inv in H, H'.
  destruct H as [_ H], H' as [_ H']. rewrite H, H'. now rewrite E.
Qed.

(** C4.  The transactions of all output ledgers together are the input
    list as a multiset; no two ledgers share a name; every input
    transaction lies in the ledger named after its party and in no other
    ledger, and each ledger holds exactly its party's transactions. *)
Theorem ledgers_partition_the_input
  (cmp : string -> string -> Z) (T : list Transaction) :
  Permutation (flat_map ledgerTxs (ledgers cmp T)) T /\
  NoDup (map accountName (ledgers cmp T)) /\
  (forall L, In L (ledgers cmp T) ->
             Permutation (ledgerTxs L) (ofParty (accountName L) T)) /\
  (forall t, In t T ->
     exists L,
       In L (ledgers cmp T) /\ accountName L = party t /\
       In t (ledgerTxs L) /\
       forall L', In L' (ledgers cmp T) -> In t (ledgerTxs L') -> L' = L).
Proof.
  split; [apply ledgers_perm |].
  split; [rewrite ledgers_names; apply Array_from_Set_NoDup |].
  split; [apply ledgerTxs_perm |].
  intros t Ht.
  set (L := ledgerOf (party t) (partyTxsOf cmp T (party t))).
  assert (HL : In L (ledgers cmp T)).
  { apply in_ledgers. exists (party t). split; [now apply in_map | reflexivity]. }
  assert (HN : accountName L = party t)
    by (unfold L; now rewrite ledgerOf_eq).
  exists L. repeat split; try assumption.
  - apply (ledgerTxs_In cmp T L t HL). now split.
  - intros L' HL' Hin. apply (ledgers_same_name cmp T); try assumption.
    apply (ledgerTxs_In cmp T L' t HL') in Hin. destruct Hin as [_ <-].
    now symmetry.
Qed.

Lemma ledgers_partition_the_input_witness :
  Permutation (flat_map ledgerTxs (ledgers codeUnitCompare demoTransactions))
    demoTransactions /\
  NoDup (map accountName (ledgers codeUnitCompare demoTransactions)) /\
  (forall L, In L (ledgers codeUnitCompare demoTransactions) ->
             Permutation (ledgerTxs L)
               (ofParty (accountName L) demoTransactions)) /\
  (forall t, In t demoTransactions ->
     exists L,
       In L (ledgers codeUnitCompare demoTransactions) /\
       accountName L = party t /\
       In t (ledgerTxs L) /\
       forall L', In L' (ledgers codeUnitCompare demoTransactions) ->
                  In t (ledgerTxs L') -> L' = L).
Proof.
  exact (ledgers_partition_the_input codeUnitCompare demoTransactions).
Defined.

(** * One ledger per party *)

Lemma filter_filter_and {A : Type} (f g : A -> bool) (l : list A) :
  filter f (filter g l) = filter (fun x => f x && g x) l.
Proof.
  induction l as [| x l IH]; [reflexivity |].
  cbn [filter]. destruct (g x); cbn [filter];
    rewrite ?andb_true_r, ?andb_false_r; destruct (f x); now rewrite IH.
Qed.

Lemma fold_Set_add_firstSeen (l : list string) :
  forall acc,
    fold_left Set_add l acc =
    acc ++ filter (fun y => negb (existsb (String.eqb y) acc)) (firstSeen l).
Proof.
  induction l as [| x l IH]; intros acc; cbn [fold_left firstSeen filter].
  - now rewrite app_nil_r.
  - rewrite IH. unfold Set_add.
    destruct (existsb (String.eqb x) acc) eqn:E; cbn [negb].
    + f_equal. rewrite filter_filter_and. apply filter_ext. intros y.
      destruct (String.eqb_spec y x) as [-> | _]; cbn [negb].
      * now rewrite E.
      * now rewrite andb_true_r.
    + rewrite <- app_assoc. cbn [app]. do 2 f_equal.
      rewrite filter_filter_and. apply filter_ext. intros y.
      rewrite existsb_app. cbn [existsb]. rewrite orb_false_r.
      now rewrite negb_orb.
Qed.

Lemma Array_from_Set_firstSeen (l : list string) :
  Array_from_Set l = firstSeen l.
Proof.
  unfold Array_from_Set. rewrite fold_Set_add_firstSeen. cbn [app existsb negb].
  induction (firstSeen l) as [| y s IH]; [reflexivity |].
  cbn [filter]. now rewrite IH.
Qed.

(** C6.  The names of the output ledgers are the distinct parties of the
    input, each once, in order of first appearance: whatever the input
    shows before the first occurrence of a party is listed before that
    party's ledger.  The output is empty exactly when the input is, and a
    ledger has as many entries as the input has transactions of its party. *)
Theorem one_ledger_per_party_in_first_seen_order
  (cmp : string -> string -> Z) (T : list Transaction) :
  map accountName (ledgers cmp T) = firstSeen (map party T) /\
  NoDup (map accountName (ledgers cmp T)) /\
  (forall p, In p (map accountName (ledgers cmp T)) <-> In p (map party T)) /\
  (forall a p b,
      map accountName (ledgers cmp T) = a ++ p :: b ->
      exists u v,
        map party T = u ++ p :: v /\ ~ In p u /\ forall q, In q u -> In q a) /\
  (ledgers cmp T = [] <-> T = []) /\
  (forall L, In L (ledgers cmp T) ->
             List.length (entries L)
             = List.length (ofParty (accountName L) T)).
Proof.
  rewrite ledgers_names.
  split; [apply Array_from_Set_firstSeen |].
  split; [apply Array_from_Set_NoDup |].
  split; [intros p; apply Array_from_Set_In |].
  split.
  { intros a p b E. apply (fold_Set_add_first _ [] a p b E). intros []. }
  split.
  - split.
    + intros E. destruct T as [| t T]; [reflexivity |].
      assert (H : In (party t) (map accountName (ledgers cmp (t :: T)))).
      { rewrite ledgers_names. apply Array_from_Set_In. now left. }
      rewrite E in H. destruct H.
    + now intros ->.
  - intros L HL. rewrite <- (length_map entry_tx).
    apply Permutation_length, (ledgerTxs_perm cmp T L HL).
Qed.

Lemma one_ledger_per_party_in_first_seen_order_witness :
  map accountName (ledgers codeUnitCompare demoTransactions)
  = ["ABC Traders"; "Sales Revenue"]%string /\
  List.length (entries demoLedger) = 3%nat.
Proof.
  destruct (one_ledger_per_party_in_first_seen_order codeUnitCompare
              demoTransactions) as (Hnames & _ & _ & _ & _ & Hcount).
  split.
  - rewrite Hnames. reflexivity.
  - rewrite (Hcount demoLedger); [reflexivity |].
    vm_compute. left. reflexivity.
Defined.

(** * Date order *)

Lemma consistent_total (cmp : string -> string -> Z) :
  consistentComparator cmp -> forall a b, 0 < cmp a b -> cmp b a <= 0.
Proof.
  intros [Hs _] a b H. specialize (Hs a b).
  destruct (Z.sgn_spec (cmp a b)) as [[? E] | [[? E] | [? E]]];
    destruct (Z.sgn_spec (cmp b a)) as [[? E'] | [[? E'] | [? E']]]; lia.
Qed.

Lemma consistent_zero_sym (cmp : string -> string -> Z) :
  consistentComparator cmp -> forall a b, cmp a b = 0 -> cmp b a = 0.
Proof.
  intros [Hs _] a b H. specialize (Hs a b).
  destruct (Z.sgn_spec (cmp a b)) as [[? E] | [[? E] | [? E]]];
    destruct (Z.sgn_spec (cmp b a)) as [[? E'] | [[? E'] | [? E']]]; lia.
Qed.

Lemma consistent_refl (cmp : string -> string -> Z) :
  consistentComparator cmp -> forall a, cmp a a = 0.
Proof.
  intros [Hs _] a. specialize (Hs a a).
  destruct (Z.sgn_spec (cmp a a)) as [[? E] | [[? E] | [? E]]]; lia.
Qed.

Lemma String_compare_le_trans (a : string) :
  forall b c,
    String.compare a b <> Gt -> String.compare b c <> Gt ->
    String.compare a c <> Gt.
Proof.
  induction a as [| x a IH]; intros [| y b] [| z c]; simpl; try congruence.
  unfold Ascii.compare.
  destruct (N.compare_spec (N_of_ascii x) (N_of_ascii y));
    destruct (N.compare_spec (N_of_ascii y) (N_of_ascii z));
    destruct (N.compare_spec (N_of_ascii x) (N_of_ascii z));
    try congruence; try lia; eauto.
Qed.

Lemma codeUnitCompare_le (a b : string) :
  codeUnitCompare a b <= 0 <-> String.compare a b <> Gt.
Proof.
  unfold codeUnitCompare. destruct (String.compare a b); split;
    intros H; try lia; try congruence.
Qed.

Lemma codeUnitCompare_consistent : consistentComparator codeUnitCompare.
Proof.
  split.
  - intros a b. unfold codeUnitCompare.
    rewrite (String.compare_antisym b a).
    now destruct (String.compare a b).
  - intros a b c. rewrite !codeUnitCompare_le.
    apply String_compare_le_trans.
Defined.

(** C5.  Under a consistent collation the transactions of every output
    ledger are in ascending date order, and the transactions of one date
    (equal as strings, or merely tied by the collation) appear in the
    relative order they had in the input. *)
Theorem entries_sorted_by_date_stably
  (cmp : string -> string -> Z) (T : list Transaction) (L : AccountLedger) :
  consistentComparator cmp ->
  In L (ledgers cmp T) ->
  StronglySorted (fun a b => cmp (date a) (date b) <= 0) (ledgerTxs L) /\
  (forall d,
      filter (fun t => cmp (date t) d =? 0) (ledgerTxs L)
      = filter (fun t => cmp (date t) d =? 0) (ofParty (accountName L) T)) /\
  (forall d,
      filter (fun t => String.eqb (date t) d) (ledgerTxs L)
      = filter (fun t => String.eqb (date t) d) (ofParty (accountName L) T)).
Proof.
  intros Hc HL. apply in_ledgers in HL. destruct HL as (p & _ & ->).
  rewrite ledgerTxs_ledgerOf, accountName_ledgerOf.
  unfold partyTxsOf. fold (ofParty p T).
  split; [| split].
  - apply (Array_sort_sorted (byDate cmp)); unfold byDate.
    + intros x y. apply consistent_total, Hc.
    + intros x y z. apply (proj2 Hc).
  - intros d. apply Array_sort_filter. unfold byDate. intros x y Hx Hy.
    apply Z.eqb_eq in Hx, Hy.
    apply (proj2 Hc _ d); [lia |].
    apply (consistent_zero_sym cmp Hc) in Hy. lia.
  - intros d. apply Array_sort_filter. unfold byDate. intros x y Hx Hy.
    apply String.eqb_eq in Hx, Hy. rewrite Hx, Hy.
    rewrite (consistent_refl cmp Hc). lia.
Qed.

Lemma entries_sorted_by_date_stably_witness :
  StronglySorted
    (fun a b => codeUnitCompare (date a) (date b) <= 0)
    (ledgerTxs demoLedger) /\
  (forall d,
      filter (fun t => codeUnitCompare (date t) d =? 0) (ledgerTxs demoLedger)
      = filter (fun t => codeUnitCompare (date t) d =? 0)
          (ofParty (accountName demoLedger) demoTransactions)) /\
  (forall d,
      filter (fun t => String.eqb (date t) d) (ledgerTxs demoLedger)
      = filter (fun t => String.eqb (date t) d)
          (ofParty (accountName demoLedger) demoTransactions)).
Proof.
  apply (entries_sorted_by_date_stably codeUnitCompare demoTransactions
           demoLedger codeUnitCompare_consistent).
  vm_compute. left. reflexivity.
Defined.

(** * The derivation on the array store *)

Lemma deref_app_old (h : Store) (a : list Transaction) (r : ref) :
  Nat.lt r (List.length h) -> deref (h ++ [a]) r = deref h r.
Proof. intros H. unfold deref. now apply app_nth1. Qed.

Lemma deref_app_new (h : Store) (a : list Transaction) :
  deref (h ++ [a]) (List.length h) = a.
Proof. unfold deref. apply nth_middle. Qed.

Lemma deref_app_many (h : Store) (l : list (list Transaction)) (r : ref) :
  Nat.lt r (List.length h) -> deref (h ++ l) r = deref h r.
Proof. intros H. unfold deref. now apply app_nth1. Qed.

Lemma assign_app_last (h : Store) (a v : list Transaction) :
  assign (h ++ [a]) (List.length h) v = h ++ [v].
Proof.
  induction h as [| x h IH]; [reflexivity |].
  cbn [app List.length assign]. now rewrite IH.
Qed.

(** One round of the callback of [parties.map]: the input array is read,
    a fresh array is allocated, sorted in place, and walked. *)
Lemma party_round (cmp : string -> string -> Z) (p : string)
  (r : ref) (h : Store) :
  Nat.lt r (List.length h) ->
  (filtered <- Array_filter (fun t => String.eqb (party t) p) r ;;
   sorted <- Array_sort_inplace (byDate cmp) filtered ;;
   partyTxs <- Array_read sorted ;;
   ret (ledgerOf p partyTxs)) h
  = (ledgerOf p (partyTxsOf cmp (deref h r) p),
     h ++ [partyTxsOf cmp (deref h r) p]).
Proof.
  intros Hr. unfold bind, Array_filter, Array_sort_inplace, Array_read, ret.
  rewrite deref_app_new, assign_app_last, deref_app_new. reflexivity.
Qed.

Lemma mapM_allocating {A B : Type} (f : A -> St B) (g : A -> B)
  (w : A -> list Transaction) (r : ref) (T : list Transaction) :
  (forall x h, Nat.lt r (List.length h) -> deref h r = T ->
               f x h = (g x, h ++ [w x])) ->
  forall l h, Nat.lt r (List.length h) -> deref h r = T ->
              mapM f l h = (map g l, h ++ map w l).
Proof.
  intros Hf. induction l as [| x l IH]; intros h Hr Hd.
  - cbn. now rewrite app_nil_r.
  - cbn [mapM map]. unfold bind at 1. rewrite (Hf x h Hr Hd).
    unfold bind at 1. rewrite IH.
    + unfold ret. now rewrite <- app_assoc.
    + rewrite length_app. apply Nat.lt_lt_add_r, Hr.
    + now rewrite deref_app_old.
Qed.

Lemma ledgersSt_eq (cmp : string -> string -> Z) (r : ref) (h : Store) :
  Nat.lt r (List.length h) ->
  ledgersSt cmp r h
  = (ledgers cmp (deref h r),
     h ++ map (partyTxsOf cmp (deref h r))
            (Array_from_Set (map party (deref h r)))).
Proof.
  intros Hr. unfold ledgersSt, bind at 1, Array_read.
  apply (mapM_allocating _
           (fun p => ledgerOf p (partyTxsOf cmp (deref h r) p))
           (partyTxsOf cmp (deref h r)) r (deref h r));
    try assumption; try reflexivity.
  intros p h0 Hr0 Hd0. rewrite party_round by assumption. now rewrite Hd0.
Qed.

(** C9.  Run on the store, the derivation returns what the pure function
    [ledgers] returns on the contents of the input array, whatever else
    the store holds; it leaves the input array, and every other array
    that existed before, as it was; so a second run returns the same
    ledgers. *)
Theorem derivation_is_pure_and_keeps_its_input
  (cmp : string -> string -> Z) (h : Store) (transactions : ref) :
  Nat.lt transactions (List.length h) ->
  fst (ledgersSt cmp transactions h) = ledgers cmp (deref h transactions) /\
  deref (snd (ledgersSt cmp transactions h)) transactions
  = deref h transactions /\
  (forall r, Nat.lt r (List.length h) ->
             deref (snd (ledgersSt cmp transactions h)) r = deref h r) /\
  fst (ledgersSt cmp transactions (snd (ledgersSt cmp transactions h)))
  = fst (ledgersSt cmp transactions h) /\
  (forall h2 r2,
      Nat.lt r2 (List.length h2) ->
      deref h2 r2 = deref h transactions ->
      fst (ledgersSt cmp r2 h2) = fst (ledgersSt cmp transactions h)).
Proof.
  intros Hr. rewrite (ledgersSt_eq cmp transactions h Hr). cbn [fst snd].
  assert (Hother : forall h2 r2,
             Nat.lt r2 (List.length h2) ->
             deref h2 r2 = deref h transactions ->
             fst (ledgersSt cmp r2 h2) = ledgers cmp (deref h transactions)).
  { intros h2 r2 H2 E. rewrite (ledgersSt_eq cmp r2 h2 H2). cbn [fst].
    now rewrite E. }
  split; [reflexivity |].
  split; [now apply deref_app_many |].
  split; [intros r; apply deref_app_many |].
  split; [| exact Hother].
  apply Hother.
  - rewrite length_app. apply Nat.lt_lt_add_r, Hr.
  - now apply deref_app_many.
Qed.

Lemma derivation_is_pure_and_keeps_its_input_witness :
  fst (ledgersSt codeUnitCompare 0%nat [demoTransactions])
  = ledgers codeUnitCompare demoTransactions /\
  deref (snd (ledgersSt codeUnitCompare 0%nat [demoTransactions])) 0%nat
  = demoTransactions.
Proof.
  destruct (derivation_is_pure_and_keeps_its_input codeUnitCompare
              [demoTransactions] 0%nat) as (H1 & H2 & _).
  - vm_compute. reflexivity.
  - split; [exact H1 | exact H2].
Defined.

(** * How the ledgers follow the transaction list *)

Lemma ofParty_app (p : string) (T N : list Transaction) :
  ofParty p (T ++ N) = ofParty p T ++ ofParty p N.
Proof. apply filter_app. Qed.

Lemma ofParty_none (p : string) (N : list Transaction) :
  (forall t, In t N -> party t <> p) -> ofParty p N = [].
Proof.
  intros H. induction N as [| t N IH]; [reflexivity |].
  unfold ofParty in *. cbn [filter].
  destruct (String.eqb_spec (party t) p) as [E | _].
  - destruct (H t (or_introl eq_refl) E).
  - apply IH. intros u Hu. apply H. now right.
Qed.

Lemma existsb_eqb_same_members (y : string) (a b : list string) :
  (forall x, In x a <-> In x b) ->
  existsb (String.eqb y) a = existsb (String.eqb y) b.
Proof.
  intros H. destruct (existsb (String.eqb y) b) eqn:E.
  - apply existsb_eqb_In. apply H. now apply existsb_eqb_In.
  - destruct (existsb (String.eqb y) a) eqn:E'; [| reflexivity].
    apply existsb_eqb_In, H, existsb_eqb_In in E'. congruence.
Qed.

(** X1.  After new transactions are appended to the list, the ledgers
    that existed keep their positions, and the ledgers of the parties not
    seen before follow, in order of first appearance among the new
    transactions. *)
Theorem ledger_names_after_append
  (cmp : string -> string -> Z) (T N : list Transaction) :
  map accountName (ledgers cmp (T ++ N))
  = map accountName (ledgers cmp T)
    ++ filter (fun p => negb (existsb (String.eqb p) (map party T)))
         (firstSeen (map party N)).
Proof.
  rewrite !ledgers_names. unfold Array_from_Set at 1.
  rewrite map_app, fold_left_app. fold (Array_from_Set (map party T)).
  rewrite fold_Set_add_firstSeen. f_equal. apply filter_ext. intros y.
  f_equal. apply existsb_eqb_same_members. intros x.
  apply Array_from_Set_In.
Qed.

(** X2.  A ledger depends on the transactions of its own party only:
    whenever another list has the same transactions for that party, in
    the same order, it yields the very same ledger.  In particular
    transactions appended for other parties leave it untouched. *)
Theorem ledger_depends_on_own_party_only
  (cmp : string -> string -> Z) (T T' : list Transaction)
  (L : AccountLedger) :
  In L (ledgers cmp T) ->
  ofParty (accountName L) T' = ofParty (accountName L) T ->
  In L (ledgers cmp T') /\
  (forall N, (forall t, In t N -> party t <> accountName L) ->
             In L (ledgers cmp (T ++ N))).
Proof.
  intros HL E. apply in_ledgers in HL. destruct HL as (p & Hp & ->).
  rewrite accountName_ledgerOf in *.
  assert (Hmove : forall U, ofParty p U = ofParty p T ->
                            In (ledgerOf p (partyTxsOf cmp T p))
                               (ledgers cmp U)).
  { intros U EU. apply in_ledgers. exists p. split.
    - pose proof (ofParty_nonempty T p Hp) as Hne. rewrite <- EU in Hne.
      destruct (ofParty p U) as [| t rest] eqn:EP; [congruence |].
      assert (Ht : In t (ofParty p U)) by (rewrite EP; now left).
      apply filter_In in Ht. destruct Ht as [Ht Et].
      apply String.eqb_eq in Et. subst p. now apply in_map.
    - unfold partyTxsOf. fold (ofParty p U) (ofParty p T). now rewrite EU. }
  split; [now apply Hmove |].
  intros N HN. apply Hmove.
  rewrite ofParty_app, (ofParty_none p N HN). apply app_nil_r.
Qed.

Lemma ledger_depends_on_own_party_only_witness :
  In demoSalesLedger (ledgers codeUnitCompare (demoTransactions ++ demoLater)).
Proof.
  refine (proj1 (ledger_depends_on_own_party_only codeUnitCompare
                   demoTransactions (demoTransactions ++ demoLater)
                   demoSalesLedger _ _)).
  - vm_compute. right. left. reflexivity.
  - vm_compute. reflexivity.
Defined.

Lemma sort_insert_before_tail {A : Type} (cmp : A -> A -> Z) (x : A)
  (a b : list A) :
  (forall y, In y b -> cmp x y <= 0) ->
  sort_insert cmp x (a ++ b) = sort_insert cmp x a ++ b.
Proof.
  intros H. induction a as [| z a IH]; cbn [app sort_insert].
  - destruct b as [| y b]; [reflexivity |]. cbn [sort_insert].
    assert (E : (cmp x y <=? 0) = true)
      by (apply Z.leb_le, H; now left).
    now rewrite E.
  - destruct (cmp x z <=? 0); [reflexivity |]. now rewrite IH.
Qed.

Lemma Array_sort_app {A : Type} (cmp : A -> A -> Z) (l1 l2 : list A) :
  (forall x y, In x l1 -> In y l2 -> cmp x y <= 0) ->
  Array_sort cmp (l1 ++ l2) = Array_sort cmp l1 ++ Array_sort cmp l2.
Proof.
  intros H. induction l1 as [| x l1 IH]; [reflexivity |].
  cbn [app Array_sort]. rewrite IH by (intros a b Ha; apply H; now right).
  apply sort_insert_before_tail. intros y Hy.
  apply H; [now left |].
  exact (Permutation_in _ (Array_sort_perm cmp l2) Hy).
Qed.

Lemma walk_app (a b : list Transaction) :
  forall st,
    walk st (a ++ b)
    = (fst (walk (fst (walk st a)) b),
       snd (walk st a) ++ snd (walk (fst (walk st a)) b)).
Proof.
  induction a as [| x a IH]; intros st.
  - cbn [app walk fst snd]. now destruct (walk st b).
  - cbn [app]. rewrite !walk_cons, IH. reflexivity.
Qed.

(** X5.  When every new transaction of a party is dated no earlier than
    every transaction the party already has, appending leaves the rows of
    its ledger as they were, balances and labels included, and puts the
    rows of the new transactions after them. *)
Theorem later_transactions_extend_a_ledger
  (cmp : string -> string -> Z) (T N : list Transaction)
  (L L' : AccountLedger) :
  In L (ledgers cmp T) ->
  In L' (ledgers cmp (T ++ N)) ->
  accountName L' = accountName L ->
  (forall t n, In t (ofParty (accountName L) T) ->
               In n (ofParty (accountName L) N) ->
               cmp (date t) (date n) <= 0) ->
  exists more,
    entries L' = entries L ++ more /\
    map entry_tx more = partyTxsOf cmp N (accountName L).
Proof.
  intros HL HL' E Hlate.
  apply in_ledgers in HL, HL'.
  destruct HL as (p & _ & ->), HL' as (p' & _ & ->).
  rewrite !accountName_ledgerOf in *. subst p'.
  rewrite !ledgerOf_eq. cbn [entries].
  unfold partyTxsOf. fold (ofParty p (T ++ N)) (ofParty p T) (ofParty p N).
  rewrite ofParty_app, (Array_sort_app (byDate cmp)) by exact Hlate.
  rewrite walk_app. cbn [snd]. eexists. split; [reflexivity |].
  apply walk_entry_tx.
Qed.

Lemma later_transactions_extend_a_ledger_witness :
  exists more,
    entries demoLaterLedger = entries demoLedger ++ more /\
    map entry_tx more
    = partyTxsOf codeUnitCompare demoLater (accountName demoLedger).
Proof.
  apply (later_transactions_extend_a_ledger codeUnitCompare
           demoTransactions demoLater demoLedger demoLaterLedger).
  - vm_compute. left. reflexivity.
  - vm_compute. left. reflexivity.
  - reflexivity.
  - intros t n Ht Hn. vm_compute in Ht, Hn.
    destruct Hn as [<- | []].
    destruct Ht as [<- | [<- | [<- | []]]]; vm_compute; discriminate.
Defined.

(** * Labels *)

Lemma isAssetOrExpense_debitNatured (t : AccountType) :
  isAssetOrExpense t = true <-> debitNatured t.
Proof.
  unfold debitNatured.
  destruct t; cbn; split; intros H; try discriminate; auto;
    destruct H; discriminate.
Qed.

Lemma signAdjusted_same_side (x : Z) (b1 b2 : bool) :
  signAdjusted x b1 = signAdjusted x b2 <-> b1 = b2.
Proof.
  unfold signAdjusted. destruct (x >=? 0), b1, b2; split; congruence.
Qed.

Lemma last_row (txs : list Transaction) (es : list LedgerEntry)
  (e : LedgerEntry) :
  snd (walk (0, 0, 0) txs) = es ++ [e] ->
  balance e = sumZ (map naturalAmount txs) /\
  balanceType e
  = signAdjusted (balance e) (isAssetOrExpense (accountType (entry_tx e))).
Proof.
  intros E. split.
  - assert (Hk : nth_error (snd (walk (0, 0, 0) txs)) (List.length es)
                 = Some e).
    { rewrite E, nth_error_app2, Nat.sub_diag by apply Nat.le_refl.
      reflexivity. }
    rewrite (walk_balance _ _ _ _ _ _ Hk), Z.add_0_l, firstn_all2;
      [reflexivity |].
    rewrite <- (walk_entry_tx txs (0, 0, 0)) at 1.
    rewrite E, length_map, length_app. simpl. lia.
  - apply (walk_label txs (0, 0, 0)). rewrite E. apply in_elt.
Qed.

(** X6.  The closing label of a ledger agrees with the label of its
    last row exactly when the first and the last date-sorted transaction
    of the party are of the same nature; when they are not, the ledger
    closes on the opposite side of its own last row. *)
Theorem closing_label_against_last_row
  (cmp : string -> string -> Z) (T : list Transaction) (L : AccountLedger)
  (firstTx : Transaction) (rest : list Transaction)
  (es : list LedgerEntry) (e : LedgerEntry) :
  In L (ledgers cmp T) ->
  ledgerTxs L = firstTx :: rest ->
  entries L = es ++ [e] ->
  closingBalance L = balance e /\
  (closingBalanceType L = balanceType e <->
   (debitNatured (accountType firstTx) <->
    debitNatured (accountType (entry_tx e)))).
Proof.
  intros HL Htx Hes. apply in_ledgers in HL. destruct HL as (p & _ & ->).
  rewrite ledgerTxs_ledgerOf in Htx. rewrite ledgerOf_eq in Hes |- *.
  cbn [entries closingBalance closingBalanceType] in *.
  destruct (last_row _ _ _ Hes) as [Hb Hl].
  split; [now symmetry |].
  rewrite Hl, Hb, Htx, firstIsAssetOrExpense_cons, <- Htx.
  rewrite signAdjusted_same_side, <- !isAssetOrExpense_debitNatured.
  apply Bool.eq_iff_eq_true.
Qed.

Lemma closing_label_against_last_row_witness :
  (closingBalance demoLedger = balance demoLastEntry /\
   (closingBalanceType demoLedger = balanceType demoLastEntry <->
    (debitNatured Asset <-> debitNatured Expense))) /\
  (closingBalance mixedLedger = balance mixedLastEntry /\
   (closingBalanceType mixedLedger = balanceType mixedLastEntry <->
    (debitNatured Income <-> debitNatured Asset))).
Proof.
  split.
  - apply (closing_label_against_last_row codeUnitCompare demoTransactions
             demoLedger (tx0 "2024-01-01" 1000 0 "ABC Traders" Asset)
             [ tx0 "2024-01-05" 0 400 "ABC Traders" Asset;
               tx0 "2024-01-05" 50 0 "ABC Traders" Expense ]
             [ mkLedgerEntry
                 (tx0 "2024-01-01" 1000 0 "ABC Traders" Asset) 1000 Dr;
               demoEntry ]
             demoLastEntry).
    + vm_compute. left. reflexivity.
    + vm_compute. reflexivity.
    + vm_compute. reflexivity.
  - apply (closing_label_against_last_row codeUnitCompare mixedTransactions
             mixedLedger (tx0 "2024-01-01" 0 100 "X" Income)
             [ tx0 "2024-01-02" 30 0 "X" Asset ]
             [ mkLedgerEntry (tx0 "2024-01-01" 0 100 "X" Income) 100 Cr ]
             mixedLastEntry).
    + vm_compute. left. reflexivity.
    + vm_compute. reflexivity.
    + vm_compute. reflexivity.
Defined.

(** * The component as a state machine *)

Lemma ledgers_names_grow (cmp : string -> string -> Z)
  (T N : list Transaction) :
  exists more,
    map accountName (ledgers cmp (T ++ N))
    = map accountName (ledgers cmp T) ++ more.
Proof.
  rewrite !ledgers_names. unfold Array_from_Set at 1.
  rewrite map_app, fold_left_app. apply fold_Set_add_grows.
Qed.

Lemma added_cons (e : Event) (es : list Event) :
  added (e :: es) = added [e] ++ added es.
Proof. unfold added. cbn [flat_map]. now rewrite app_nil_r. Qed.

Lemma handle_appends (e : Event) (s : AppState) :
  isConfirmedReset e = false ->
  transactions (handle e s) = transactions s ++ added [e].
Proof.
  intros H. destruct e as [| x | | x | v | [|] | m |]; cbn in *;
    rewrite ?app_nil_r; try reflexivity; discriminate.
Qed.

Lemma hasTransactions_nonempty (s : AppState) :
  hasTransactions s = true <-> transactions s <> [].
Proof.
  unfold hasTransactions. destruct (transactions s); cbn; split;
    congruence.
Qed.

(** X9.  Along any run in which no reset is confirmed, however uploads,
    manual entries and clicks interleave, the transaction list is the
    list at the start followed by every batch handed over, in order of
    arrival: nothing is lost or reordered.  The ledgers present at the
    start therefore keep their positions. *)
Theorem additions_accumulate_in_order
  (cmp : string -> string -> Z) (s s' : AppState) (es : list Event) :
  steps s es s' ->
  existsb isConfirmedReset es = false ->
  transactions s' = transactions s ++ added es /\
  exists more,
    map accountName (ledgers cmp (transactions s'))
    = map accountName (ledgers cmp (transactions s)) ++ more.
Proof.
  intros Hsteps Hno.
  assert (Htx : transactions s' = transactions s ++ added es).
  { induction Hsteps as [s | s e es s' He Hsteps IH].
    - cbn. now rewrite app_nil_r.
    - cbn [existsb] in Hno. apply orb_false_iff in Hno.
      destruct Hno as [He0 Hes].
      rewrite (IH Hes), (handle_appends e s He0), (added_cons e es).
      symmetry. apply app_assoc. }
  split; [assumption |]. rewrite Htx. apply ledgers_names_grow.
Qed.

Lemma additions_accumulate_in_order_witness :
  transactions
    (fold_left (fun st e => handle e st) demoTrace initialState)
  = transactions initialState ++ added demoTrace /\
  exists more,
    map accountName
      (ledgers codeUnitCompare
         (transactions
            (fold_left (fun st e => handle e st) demoTrace initialState)))
    = map accountName
        (ledgers codeUnitCompare (transactions initialState)) ++ more.
Proof.
  apply (additions_accumulate_in_order codeUnitCompare initialState
           (fold_left (fun st e => handle e st) demoTrace initialState)
           demoTrace).
  - unfold demoTrace. cbn [fold_left].
    repeat (apply steps_cons; [vm_compute; reflexivity |]).
    apply steps_nil.
  - vm_compute. reflexivity.
Defined.

Lemma top_sheet_invariant_step (e : Event) (s : AppState) :
  enabled s e = true ->
  (activeTab s = ViewTopsheet -> transactions s <> []) ->
  activeTab (handle e s) = ViewTopsheet -> transactions (handle e s) <> [].
Proof.
  intros He H0.
  destruct e as [| x | | x | v | [|] | m |];
    cbn [handle handleFileUpload_begin handleFileUpload_resolved
         handleFileUpload_rejected handleManualEntry setActiveTab
         resetWorkspace setInputMode activeTab transactions enabled] in *.
  - exact H0.
  - discriminate.
  - exact H0.
  - discriminate.
  - intros _. now apply hasTransactions_nonempty.
  - discriminate.
  - exact H0.
  - exact H0.
  - intros _. unfold summaryButtonRendered in He.
    apply andb_true_iff in He. now apply hasTransactions_nonempty.
Qed.

(** X10.  From the initial state the top sheet is never on the page
    while the transaction list is empty: whenever it is rendered there is
    at least one ledger to summarise. *)
Theorem top_sheet_never_shown_empty
  (cmp : string -> string -> Z) (s : AppState) (es : list Event) :
  steps initialState es s ->
  topSheetRendered s = true ->
  transactions s <> [] /\ ledgers cmp (transactions s) <> [].
Proof.
  intros Hsteps Htop.
  assert (Hne : transactions s <> []).
  { assert (Hinv : forall s0,
               steps s0 es s ->
               (activeTab s0 = ViewTopsheet -> transactions s0 <> []) ->
               activeTab s = ViewTopsheet -> transactions s <> []).
    { clear Hsteps Htop. intros s0 Hsteps.
      induction Hsteps as [s1 | s1 e es s2 He Hsteps IH]; intros H0;
        [exact H0 |].
      apply IH. now apply top_sheet_invariant_step. }
    apply (Hinv initialState Hsteps); [discriminate |].
    unfold topSheetRendered in Htop. now destruct (activeTab s). }
  split; [assumption |].
  intros E. apply Hne.
  destruct (transactions s) as [| t T]; [reflexivity |].
  assert (H : In (party t) (map accountName (ledgers cmp (t :: T)))).
  { rewrite ledgers_names. apply Array_from_Set_In. now left. }
  rewrite E in H. destruct H.
Qed.

Lemma top_sheet_never_shown_empty_witness :
  transactions
    (fold_left (fun st e => handle e st) (firstn 5 demoTrace) initialState)
  <> [] /\
  ledgers codeUnitCompare
    (transactions
       (fold_left (fun st e => handle e st) (firstn 5 demoTrace)
          initialState))
  <> [].
Proof.
  apply (top_sheet_never_shown_empty codeUnitCompare _ (firstn 5 demoTrace)).
  - unfold demoTrace. cbn [firstn fold_left].
    repeat (apply steps_cons; [vm_compute; reflexivity |]).
    apply steps_nil.
  - vm_compute. reflexivity.
Defined.

(** X11.  An empty batch arriving while the transaction list is empty
    (a manual entry of nothing, or an extraction that found nothing)
    switches to the ledgers view with no ledger in it and leaves no
    control of the component on the page: no tab navigation, no reset
    button, no capture view, no summary button.  No sequence of clicks
    leads out of that state. *)
Theorem empty_batch_strands_the_ledgers_view
  (cmp : string -> string -> Z) (s : AppState) (e : Event) :
  transactions s = [] ->
  e = EvManualEntry [] \/ e = EvUploadResolved [] ->
  ledgersViewRendered (handle e s) = true /\
  ledgers cmp (transactions (handle e s)) = [] /\
  captureRendered (handle e s) = false /\
  topSheetRendered (handle e s) = false /\
  (forall c, isOwnControl c = true -> enabled (handle e s) c = false) /\
  (forall cs s',
      steps (handle e s) cs s' ->
      forallb isOwnControl cs = true ->
      cs = [] /\ s' = handle e s).
Proof.
  intros Hs He.
  assert (Hctl : forall c, isOwnControl c = true ->
                           enabled (handle e s) c = false).
  { intros c Hc. destruct He as [-> | ->];
      destruct c; try discriminate; cbn;
        unfold navRendered, resetRendered, summaryButtonRendered,
               captureRendered, hasTransactions; cbn; rewrite ?Hs;
          reflexivity. }
  split; [destruct He as [-> | ->]; reflexivity |].
  split; [destruct He as [-> | ->]; cbn; now rewrite Hs |].
  split; [destruct He as [-> | ->]; reflexivity |].
  split; [destruct He as [-> | ->]; reflexivity |].
  split; [exact Hctl |].
  intros cs s' Hst Hall. inversion Hst as [s0 | s0 c cs0 s1 Hc Hrest]; subst.
  - now split.
  - cbn [forallb] in Hall. apply andb_true_iff in Hall.
    rewrite (Hctl c (proj1 Hall)) in Hc. discriminate.
Qed.

Lemma empty_batch_strands_the_ledgers_view_witness :
  steps initialState [EvManualEntry []]
    (handle (EvManualEntry []) initialState) /\
  ledgersViewRendered (handle (EvManualEntry []) initialState) = true /\
  (forall c, isOwnControl c = true ->
             enabled (handle (EvManualEntry []) initialState) c = false).
Proof.
  split.
  - apply steps_cons; [reflexivity | apply steps_nil].
  - destruct (empty_batch_strands_the_ledgers_view codeUnitCompare
                initialState (EvManualEntry []))
      as (Hview & _ & _ & _ & Hctl & _).
    + reflexivity.
    + left. reflexivity.
    + split; [exact Hview | exact Hctl].
Defined.

Lemma handle_keeps_error (e : Event) (s : AppState) :
  touchesError e = false -> error (handle e s) = error s.
Proof.
  intros H. destruct e as [| x | | x | v | [|] | m |]; cbn in *;
    try reflexivity; discriminate.
Qed.

(** X12.  Only an upload changes the error message: starting one clears
    it, a failed one sets it.  Along any run without those two events the
    message stays what it was, so a failure message survives manual
    entries, tab changes, a successful extraction and a confirmed
    reset. *)
Theorem error_message_persists
  (s s' : AppState) (es : list Event) :
  steps s es s' ->
  existsb touchesError es = false ->
  error s' = error s.
Proof.
  intros Hsteps. induction Hsteps as [s | s e es s' He Hsteps IH];
    intros Hno; [reflexivity |].
  cbn [existsb] in Hno. apply orb_false_iff in Hno.
  destruct Hno as [He0 Hes].
  rewrite (IH Hes). now apply handle_keeps_error.
Qed.

Lemma error_message_persists_witness :
  error
    (fold_left (fun st e => handle e st)
       [EvManualEntry demoTransactions; EvReset true]
       (handleFileUpload_rejected initialState))
  = Some uploadFailedMessage.
Proof.
  apply (error_message_persists (handleFileUpload_rejected initialState)
           _ [EvManualEntry demoTransactions; EvReset true]).
  - cbn [fold_left].
    repeat (apply steps_cons; [vm_compute; reflexivity |]).
    apply steps_nil.
  - reflexivity.
Defined.

(** * Totals and closing balance in binary64 *)

Lemma ieee_visit_eq (rb td tc : Floats.PrimFloat.float)
  (tx : IEEE.Transaction) :
  IEEE.visit (rb, td, tc) tx =
  ((Floats.PrimFloat.add rb (IEEE.rowAmount tx),
    Floats.PrimFloat.add td (IEEE.debit tx),
    Floats.PrimFloat.add tc (IEEE.credit tx)),
   {| IEEE.entry_tx := tx;
      IEEE.balance := Floats.PrimFloat.add rb (IEEE.rowAmount tx);
      IEEE.balanceType :=
        IEEE.signAdjusted (Floats.PrimFloat.add rb (IEEE.rowAmount tx))
          (isAssetOrExpense (IEEE.accountType tx)) |}).
Proof.
  unfold IEEE.visit, IEEE.rowAmount, IEEE.debitLessCredit,
    IEEE.creditLessDebit.
  now destruct (isAssetOrExpense (IEEE.accountType tx)).
Qed.

Lemma ieee_walk_cons (st : IEEE.Locals) (tx : IEEE.Transaction)
  (rest : list IEEE.Transaction) :
  IEEE.walk st (tx :: rest) =
  (fst (IEEE.walk (fst (IEEE.visit st tx)) rest),
   snd (IEEE.visit st tx) :: snd (IEEE.walk (fst (IEEE.visit st tx)) rest)).
Proof.
  cbn [IEEE.walk]. destruct (IEEE.visit st tx) as [st1 e]. cbn [fst snd].
  now destruct (IEEE.walk st1 rest).
Qed.

Lemma ieee_walk_locals (txs : list IEEE.Transaction) :
  forall rb td tc,
    fst (IEEE.walk (rb, td, tc) txs) =
    (fold_left (fun acc t => Floats.PrimFloat.add acc (IEEE.rowAmount t))
       txs rb,
     fold_left (fun acc t => Floats.PrimFloat.add acc (IEEE.debit t)) txs td,
     fold_left (fun acc t => Floats.PrimFloat.add acc (IEEE.credit t))
       txs tc).
Proof.
  induction txs as [| tx rest IH]; intros rb td tc; [reflexivity |].
  rewrite ieee_walk_cons, ieee_visit_eq. cbn [fst fold_left]. apply IH.
Qed.

Lemma ieee_walk_entry_tx (txs : list IEEE.Transaction) :
  forall st, map IEEE.entry_tx (snd (IEEE.walk st txs)) = txs.
Proof.
  induction txs as [| tx rest IH]; intros [[rb td] tc]; [reflexivity |].
  rewrite ieee_walk_cons, ieee_visit_eq. cbn [fst snd map IEEE.entry_tx].
  now rewrite IH.
Qed.

(** What [ledgerOf] puts in the fields the totals are about. *)
Lemma ieee_ledgerOf_fields (p : string) (txs : list IEEE.Transaction) :
  IEEE.accountName (IEEE.ledgerOf p txs) = p /\
  IEEE.ledgerTxs (IEEE.ledgerOf p txs) = txs /\
  IEEE.closingBalance (IEEE.ledgerOf p txs)
  = IEEE.runningSum IEEE.rowAmount txs /\
  IEEE.totalDebit (IEEE.ledgerOf p txs) = IEEE.runningSum IEEE.debit txs /\
  IEEE.totalCredit (IEEE.ledgerOf p txs) = IEEE.runningSum IEEE.credit txs.
Proof.
  unfold IEEE.ledgerOf, IEEE.ledgerTxs, IEEE.runningSum.
  pose proof (ieee_walk_locals txs
                Floats.PrimFloat.zero Floats.PrimFloat.zero
                Floats.PrimFloat.zero) as H.
  pose proof (ieee_walk_entry_tx txs
                (Floats.PrimFloat.zero, Floats.PrimFloat.zero,
                 Floats.PrimFloat.zero)) as He.
  unfold Floats.PrimFloat.zero in H, He.
  destruct (IEEE.walk _ txs) as [[[rb td] tc] es].
  cbn [fst snd] in *. injection H as -> -> ->. cbn. tauto.
Qed.

Lemma ieee_in_ledgers (cmp : string -> string -> Z)
  (T : list IEEE.Transaction) (L : IEEE.AccountLedger) :
  In L (IEEE.ledgers cmp T) <->
  exists p, In p (map IEEE.party T) /\
            L = IEEE.ledgerOf p (IEEE.partyTxsOf cmp T p).
Proof.
  unfold IEEE.ledgers. rewrite in_map_iff. split.
  - intros (p & <- & Hp). exists p. split; [| reflexivity].
    now apply Array_from_Set_In.
  - intros (p & Hp & ->). exists p. split; [reflexivity |].
    now apply Array_from_Set_In.
Qed.

(** Two lists sort to the same sequence exactly when each class of tied
    elements comes in the same order in both. *)
Lemma Array_sort_same_iff_tie_order {A : Type} (cmp : A -> A -> Z)
  (l l' : list A) :
  (forall x y, 0 < cmp x y -> cmp y x <= 0) ->
  (forall x y z, cmp x y <= 0 -> cmp y z <= 0 -> cmp x z <= 0) ->
  Array_sort cmp l' = Array_sort cmp l <->
  forall x, filter (tied cmp x) l' = filter (tied cmp x) l.
Proof.
  intros Htot Htrans.
  assert (Hclass : forall x a b,
             tied cmp x a = true -> tied cmp x b = true -> cmp a b <= 0).
  { intros x a b Ha Hb. unfold tied in Ha, Hb.
    apply andb_true_iff in Ha, Hb. rewrite !Z.leb_le in Ha, Hb.
    apply (Htrans a x b); tauto. }
  split.
  - intros E x.
    rewrite <- (Array_sort_filter cmp (tied cmp x) (Hclass x) l').
    rewrite <- (Array_sort_filter cmp (tied cmp x) (Hclass x) l).
    now rewrite E.
  - intros Hf. apply (Array_sort_unique cmp Htot Htrans).
    + now apply Array_sort_sorted.
    + intros x. rewrite <- Hf. now apply Array_sort_filter, Hclass.
Qed.

Lemma byDate_consistent (cmp : string -> string -> Z) :
  consistentComparator cmp ->
  (forall x y, 0 < IEEE.byDate cmp x y -> IEEE.byDate cmp y x <= 0) /\
  (forall x y z, IEEE.byDate cmp x y <= 0 -> IEEE.byDate cmp y z <= 0 ->
                 IEEE.byDate cmp x z <= 0).
Proof.
  intros Hc. unfold IEEE.byDate. split.
  - intros x y. now apply consistent_total.
  - intros x y z. apply (proj2 Hc).
Qed.

(** C7, as the code has it.  A ledger's totalDebit is the sum of the debit
    amounts of its party's transactions added one at a time, from 0, in
    the ledger's date-sorted order, each addition rounded to a double;
    totalCredit likewise.  Under a consistent collation two inputs in
    which the party's transactions of tied dates come in the same
    relative order give the same ledger, so the totals do not depend on
    how the input orders transactions of different dates or of other
    parties. *)
Theorem totals_accumulate_in_ledger_order
  (cmp : string -> string -> Z) (T : list IEEE.Transaction)
  (L : IEEE.AccountLedger) :
  In L (IEEE.ledgers cmp T) ->
  IEEE.ledgerTxs L = IEEE.partyTxsOf cmp T (IEEE.accountName L) /\
  Permutation (IEEE.ledgerTxs L) (IEEE.ofParty (IEEE.accountName L) T) /\
  IEEE.totalDebit L = IEEE.runningSum IEEE.debit (IEEE.ledgerTxs L) /\
  IEEE.totalCredit L = IEEE.runningSum IEEE.credit (IEEE.ledgerTxs L) /\
  (consistentComparator cmp ->
   forall T' L',
     In L' (IEEE.ledgers cmp T') ->
     IEEE.accountName L' = IEEE.accountName L ->
     (forall x,
         filter (tied (IEEE.byDate cmp) x)
           (IEEE.ofParty (IEEE.accountName L) T')
         = filter (tied (IEEE.byDate cmp) x)
             (IEEE.ofParty (IEEE.accountName L) T)) ->
     L' = L /\
     IEEE.totalDebit L' = IEEE.totalDebit L /\
     IEEE.totalCredit L' = IEEE.totalCredit L).
Proof.
  intros HL. apply ieee_in_ledgers in HL. destruct HL as (p & _ & ->).
  destruct (ieee_ledgerOf_fields p (IEEE.partyTxsOf cmp T p))
    as (Hn & Htx & _ & Hd & Hc).
  rewrite Hn, Htx, Hd, Hc.
  split; [reflexivity |].
  split; [apply Array_sort_perm |].
  split; [reflexivity |]. split; [reflexivity |].
  intros Hcons T' L' HL' E Hties.
  apply ieee_in_ledgers in HL'. destruct HL' as (p' & _ & ->).
  rewrite (proj1 (ieee_ledgerOf_fields p' _)) in E. subst p'.
  destruct (byDate_consistent cmp Hcons) as [Htot Htrans].
  assert (Hsame : IEEE.partyTxsOf cmp T' p = IEEE.partyTxsOf cmp T p).
  { unfold IEEE.partyTxsOf. fold (IEEE.ofParty p T') (IEEE.ofParty p T).
    now apply (Array_sort_same_iff_tie_order (IEEE.byDate cmp)). }
  rewrite Hsame. split; [reflexivity | split; [exact Hd | exact Hc]].
Qed.

Lemma totals_accumulate_in_ledger_order_witness :
  IEEE.totalDebit
    (IEEE.ledgerOf "P" (IEEE.partyTxsOf codeUnitCompare IEEE.threeDays "P"))
  = IEEE.runningSum IEEE.debit
      (IEEE.partyTxsOf codeUnitCompare IEEE.threeDays "P") /\
  IEEE.totalDebit
    (IEEE.ledgerOf "P"
       (IEEE.partyTxsOf codeUnitCompare IEEE.threeDaysShuffled "P"))
  = IEEE.totalDebit
      (IEEE.ledgerOf "P" (IEEE.partyTxsOf codeUnitCompare IEEE.threeDays "P")).
Proof.
  destruct (totals_accumulate_in_ledger_order codeUnitCompare IEEE.threeDays
              (IEEE.ledgerOf "P"
                 (IEEE.partyTxsOf codeUnitCompare IEEE.threeDays "P")))
    as (_ & _ & Hd & _ & Horder).
  - vm_compute. left. reflexivity.
  - split; [exact Hd |].
    apply (Horder codeUnitCompare_consistent IEEE.threeDaysShuffled).
    + vm_compute. left. reflexivity.
    + reflexivity.
    + destruct (byDate_consistent codeUnitCompare codeUnitCompare_consistent)
        as [Htot Htrans].
      apply (Array_sort_same_iff_tie_order (IEEE.byDate codeUnitCompare)
               _ _ Htot Htrans).
      vm_compute. reflexivity.
Defined.

(** C7 as stated fails on the code: the same three debits of one party
    on one date, given in the opposite order, add up to another
    totalDebit. *)
Lemma totals_depend_on_same_day_order :
  exists L L',
    Permutation IEEE.sameDay IEEE.sameDayReversed /\
    In L (IEEE.ledgers codeUnitCompare IEEE.sameDay) /\
    In L' (IEEE.ledgers codeUnitCompare IEEE.sameDayReversed) /\
    IEEE.accountName L = IEEE.accountName L' /\
    Floats.PrimFloat.ltb (IEEE.totalDebit L') (IEEE.totalDebit L) = true /\
    IEEE.totalDebit L <> IEEE.totalDebit L'.
Proof.
  exists (IEEE.ledgerOf "P"
            (IEEE.partyTxsOf codeUnitCompare IEEE.sameDay "P")),
         (IEEE.ledgerOf "P"
            (IEEE.partyTxsOf codeUnitCompare IEEE.sameDayReversed "P")).
  split; [change IEEE.sameDayReversed with (rev IEEE.sameDay);
          apply Permutation_rev |].
  split; [vm_compute; left; reflexivity |].
  split; [vm_compute; left; reflexivity |].
  split; [reflexivity |].
  split; [vm_compute; reflexivity |].
  intros H.
  apply (f_equal (Floats.PrimFloat.eqb
                    (IEEE.totalDebit
                       (IEEE.ledgerOf "P"
                          (IEEE.partyTxsOf codeUnitCompare IEEE.sameDay
                             "P"))))) in H.
  vm_compute in H. discriminate.
Qed.









(** The figures behind the two failures. *)

Example ieee_scenario_abc_traders :
  IEEE.ledgers codeUnitCompare IEEE.abcTraders = [IEEE.abcTradersLedger].
Proof. vm_compute. reflexivity. Qed.

Example same_day_totals :
  map IEEE.totalDebit (IEEE.ledgers codeUnitCompare IEEE.sameDay)
  = [IEEE.sixTenthsAndUlp] /\
  map IEEE.totalDebit (IEEE.ledgers codeUnitCompare IEEE.sameDayReversed)
  = [IEEE.sixTenths].
Proof. split; vm_compute; reflexivity. Qed.

Example paid_and_billed_figures :
  map (fun L => (IEEE.closingBalance L,
                 Floats.PrimFloat.sub (IEEE.totalDebit L)
                   (IEEE.totalCredit L)))
    (IEEE.ledgers codeUnitCompare IEEE.paidAndBilled)
  = [(IEEE.twoTenths, IEEE.twoTenthsAndUlp)].
Proof. vm_compute. reflexivity. Qed.
